(** * Pairwise non-bonding force fields (molmod, lib/pairff.py)

    A shallow embedding of the reference implementation of the pairwise
    force fields [PairFF], [CoulombFF], [DispersionFF] and [PauliFF], over
    exact real arithmetic: a Python float is a real number of the Standard
    Library, a numpy array is a list (a matrix is the list of its rows), an
    attribute that may be missing is an [option], and a Python exception is
    the [Raise] case of an error monad. Of the memory layout of an array
    only one fact matters to the code, whether [ravel()] returns a view of
    the mask or a copy; the mask handed to the constructor carries it. *)

From Stdlib Require Import Reals List Lia Lra PeanoNat Bool.
Import ListNotations.
Open Scope R_scope.

(** ** Exceptions *)

Inductive exn : Type :=
| AttributeError
| IndexError
| NotImplementedError.

Inductive result (A : Type) : Type :=
| Ok (a : A)
| Raise (e : exn).

Arguments Ok {A} a.
Arguments Raise {A} e.

Definition bind {A B : Type} (c : result A) (k : A -> result B) : result B :=
  match c with
  | Ok a => k a
  | Raise e => Raise e
  end.

Notation "x <- c1 ;; c2" := (bind c1 (fun x => c2))
  (at level 61, c1 at next level, right associativity).
Notation "' pat <- c1 ;; c2" := (bind c1 (fun x => match x with pat => c2 end))
  (at level 61, pat pattern, c1 at next level, right associativity).

(** A [for] loop whose body may raise: the accumulator is threaded through
    the elements in order, the first exception ends the loop. *)
Fixpoint foldM {S A : Type} (body : S -> A -> result S) (l : list A) (s : S)
  : result S :=
  match l with
  | [] => Ok s
  | a :: l' => s' <- body s a ;; foldM body l' s'
  end.

(** A loop that fills a preallocated array, one entry per index. *)
Fixpoint mapM {A B : Type} (f : A -> result B) (l : list A) : result (list B) :=
  match l with
  | [] => Ok []
  | a :: l' => b <- f a ;; bs <- mapM f l' ;; Ok (b :: bs)
  end.

Definition xrange (n : nat) : list nat := seq 0 n.

Definition enumerate {A : Type} (l : list A) : list (nat * A) :=
  combine (seq 0 (length l)) l.

(** ** Arrays *)

(** [a[i]]: out of range is an [IndexError] (indices are never negative
    here, they come from [xrange]). *)
Definition get1 {A : Type} (a : list A) (i : nat) : result A :=
  match nth_error a i with
  | Some x => Ok x
  | None => Raise IndexError
  end.

(** [a[i, j]] *)
Definition get2 {A : Type} (a : list (list A)) (i j : nat) : result A :=
  row <- get1 a i ;; get1 row j.

(** ** Vectors of length three and 3x3 blocks *)

Record vec3 : Type := V3 { vx : R; vy : R; vz : R }.
Record mat3 : Type := M3 { row0 : vec3; row1 : vec3; row2 : vec3 }.

Definition vzero : vec3 := V3 0 0 0.
Definition vadd (u v : vec3) : vec3 := V3 (vx u + vx v) (vy u + vy v) (vz u + vz v).
Definition vsub (u v : vec3) : vec3 := V3 (vx u - vx v) (vy u - vy v) (vz u - vz v).
Definition vneg (u : vec3) : vec3 := V3 (- vx u) (- vy u) (- vz u).
Definition smul (k : R) (u : vec3) : vec3 := V3 (k * vx u) (k * vy u) (k * vz u).
Definition vmuls (u : vec3) (k : R) : vec3 := V3 (vx u * k) (vy u * k) (vz u * k).
Definition vdiv (u : vec3) (k : R) : vec3 := V3 (vx u / k) (vy u / k) (vz u / k).
Definition dot (u v : vec3) : R := vx u * vx v + vy u * vy v + vz u * vz v.
Definition outer (u v : vec3) : mat3 := M3 (smul (vx u) v) (smul (vy u) v) (smul (vz u) v).

Definition mzero : mat3 := M3 vzero vzero vzero.
Definition identity3 : mat3 := M3 (V3 1 0 0) (V3 0 1 0) (V3 0 0 1).
Definition madd (a b : mat3) : mat3 :=
  M3 (vadd (row0 a) (row0 b)) (vadd (row1 a) (row1 b)) (vadd (row2 a) (row2 b)).
Definition msub (a b : mat3) : mat3 :=
  M3 (vsub (row0 a) (row0 b)) (vsub (row1 a) (row1 b)) (vsub (row2 a) (row2 b)).
Definition mmul (k : R) (a : mat3) : mat3 :=
  M3 (smul k (row0 a)) (smul k (row1 a)) (smul k (row2 a)).
Definition mmuls (a : mat3) (k : R) : mat3 :=
  M3 (vmuls (row0 a) k) (vmuls (row1 a) k) (vmuls (row2 a) k).

Definition msum (l : list mat3) : mat3 := fold_right madd mzero l.

Definition vec_list (u : vec3) : list R := [vx u; vy u; vz u].
Definition mat_rows (a : mat3) : list (list R) :=
  [vec_list (row0 a); vec_list (row1 a); vec_list (row2 a)].

(** ** The geometry cache *)

(** What one pass of the inner loop of [update_coordinates] writes at
    [index1, index2]. [pg_divisions] is a ghost field, never stored: the
    divisors of the divisions the pass performs. *)
Record pair_geom : Type := {
  pg_delta : vec3;
  pg_distance : R;
  pg_direction : vec3;
  pg_dirouter : mat3;
  pg_divisions : list R
}.

Definition pair_geometry (index1 index2 : nat) (coordinate1 coordinate2 : vec3)
  : pair_geom :=
  let delta := vsub coordinate1 coordinate2 in
  let distance := sqrt (dot delta delta) in
  if negb (index1 =? index2)%nat then
    let tmp := vdiv delta distance in
    {| pg_delta := delta; pg_distance := distance;
       pg_direction := tmp; pg_dirouter := outer tmp tmp;
       pg_divisions := [distance] |}
  else
    {| pg_delta := delta; pg_distance := distance;
       pg_direction := vzero; pg_dirouter := mzero;
       pg_divisions := [] |}.

(** The attributes [update_coordinates] sets after [self.coordinates]. *)
Record geometry : Type := {
  numc : nat;
  distances : list (list R);
  deltas : list (list vec3);
  directions : list (list vec3);
  dirouters : list (list mat3)
}.

(** The double loop over [enumerate(self.coordinates)], one array at a time. *)
Definition pair_table {A : Type} (field : pair_geom -> A) (coordinates : list vec3)
  : list (list A) :=
  map (fun '(index1, coordinate1) =>
         map (fun '(index2, coordinate2) =>
                field (pair_geometry index1 index2 coordinate1 coordinate2))
             (enumerate coordinates))
      (enumerate coordinates).

Definition build_geometry (coordinates : list vec3) : geometry :=
  {| numc := length coordinates;
     distances := pair_table pg_distance coordinates;
     deltas := pair_table pg_delta coordinates;
     directions := pair_table pg_direction coordinates;
     dirouters := pair_table pg_dirouter coordinates |}.

(** Ghost: every division of one call of [update_coordinates], with the
    pair of indices it is performed for. *)
Definition update_divisions (coordinates : list vec3) : list (nat * nat * R) :=
  flat_map (fun '(index1, coordinate1) =>
    flat_map (fun '(index2, coordinate2) =>
      map (fun d => (index1, index2, d))
          (pg_divisions (pair_geometry index1 index2 coordinate1 coordinate2)))
      (enumerate coordinates))
    (enumerate coordinates).

(** ** The evaluator *)

(** The class of the object and the attributes its constructor adds. *)
Inductive potential : Type :=
| Abstract
| Coulomb (charges : option (list R)) (dipoles : option (list vec3))
| Dispersion (strengths : list (list R))
| Pauli (strengths : list (list R)).

Record PairFF : Type := {
  mask : list (list R);
  coordinates : option (list vec3);
  geom : option geometry;
  pot : potential
}.

(** Reading an attribute of the geometry cache; it is missing until
    [update_coordinates] has run. *)
Definition attr {A : Type} (self : PairFF) (field : geometry -> A) : result A :=
  match geom self with
  | Some g => Ok (field g)
  | None => Raise AttributeError
  end.

Definition update_coordinates (new_coordinates : option (list vec3)) (self : PairFF)
  : result PairFF :=
  let stored :=
    match new_coordinates with
    | Some c => Some c
    | None => coordinates self
    end in
  match stored with
  | None => Raise AttributeError
  | Some c =>
      Ok {| mask := mask self; coordinates := Some c;
            geom := Some (build_geometry c); pot := pot self |}
  end.

(** [a.ravel()[::step] = 0] on the flat, row-major buffer of the array. *)
Definition zero_strided (step : nat) (flat : list R) : list R :=
  map (fun '(k, x) => if (k mod step =? 0)%nat then 0 else x) (enumerate flat).

(** The rows of width [n] of a flat buffer holding [k] of them. *)
Fixpoint reshape (k n : nat) (flat : list R) : list (list R) :=
  match k with
  | O => []
  | S k' => firstn n flat :: reshape k' n (skipn n flat)
  end.

(** The assignment [a.ravel()[::len(a)+1] = 0] when [ravel()] returns a
    view: the flat buffer is the array itself, and every entry whose flat
    index is a multiple of [len(a) + 1] becomes zero. *)
Definition zero_diagonal (mask0 : list (list R)) : list (list R) :=
  reshape (length mask0) (length mask0)
          (zero_strided (length mask0 + 1) (concat mask0)).

(** A two-dimensional numpy array as a caller hands it over: its entries
    row by row and, of its memory layout, whether [ravel()] returns a view
    of it. It does for every C-contiguous array (what [numpy.array],
    [numpy.ones] and [numpy.zeros] build) and for every array of at most one
    row; for an array in Fortran order, a transpose or a slice across rows
    [ravel()] returns a copy. *)
Record ndarray : Type := {
  items : list (list R);
  ravel_is_view : bool
}.

Definition C_contiguous (a : list (list R)) : ndarray :=
  {| items := a; ravel_is_view := true |}.

(** [self.mask.ravel()[::len(self.mask)+1] = 0]: the assignment reaches
    the mask through a view; made on a copy it is lost with the copy. *)
Definition ravel_assign_diagonal (mask0 : ndarray) : list (list R) :=
  if ravel_is_view mask0 then zero_diagonal (items mask0) else items mask0.

(** [PairFF.__init__] followed by the attribute assignments of the derived
    class, which [pot0] carries. The constructor calls
    [update_coordinates] before it stores the mask; the two touch different
    attributes, so the order does not show. *)
Definition PairFF_init (mask0 : ndarray) (coordinates0 : option (list vec3))
    (pot0 : potential) : result PairFF :=
  let self := {| mask := ravel_assign_diagonal mask0; coordinates := None;
                 geom := None; pot := pot0 |} in
  match coordinates0 with
  | Some c => update_coordinates (Some c) self
  | None => Ok self
  end.

(** The constructor called with a C-contiguous mask. *)
Definition new_PairFF (mask0 : list (list R)) (coordinates0 : option (list vec3))
    (pot0 : potential) : result PairFF :=
  PairFF_init (C_contiguous mask0) coordinates0 pot0.

(** ** Term providers

    A generator is modelled by the list of the pairs it yields, or by the
    exception that ends it. *)

Module CoulombFF.

(** [c1] and [c2], read when [self.charges is not None]. *)
Definition read_charges (charges : option (list R)) (index1 index2 : nat)
  : result (option (R * R)) :=
  match charges with
  | Some cs =>
      c1 <- get1 cs index1 ;; c2 <- get1 cs index2 ;; Ok (Some (c1, c2))
  | None => Ok None
  end.

Definition yield_pair_energies (self : PairFF) (charges : option (list R))
    (dipoles : option (list vec3)) (index1 index2 : nat)
  : result (list (R * R)) :=
  ds <- attr self distances ;;
  distance <- get2 ds index1 index2 ;;
  let d_1 := 1 / distance in
  cc <- read_charges charges index1 index2 ;;
  let charge_terms :=
    match cc with
    | Some (c1, c2) => [(c1 * c2 * d_1, 1)]
    | None => []
    end in
  dipole_terms <-
    match dipoles with
    | Some ps =>
        let d_3 := d_1 ^ 3 in
        let d_5 := d_1 ^ 5 in
        dl <- attr self deltas ;;
        delta <- get2 dl index1 index2 ;;
        p1 <- get1 ps index1 ;;
        p2 <- get1 ps index2 ;;
        Ok ([(d_3 * dot p1 p2, 1);
             (-3 * d_5, dot p1 delta * dot delta p2)]
            ++ match cc with
               | Some (c1, c2) =>
                   [(c1 * d_3, dot p2 delta);
                    (c2 * d_3, dot p1 (vneg delta))]
               | None => []
               end)
    | None => Ok []
    end ;;
  Ok (charge_terms ++ dipole_terms).

Definition yield_pair_gradients (self : PairFF) (charges : option (list R))
    (dipoles : option (list vec3)) (index1 index2 : nat)
  : result (list (R * vec3)) :=
  ds <- attr self distances ;;
  distance <- get2 ds index1 index2 ;;
  let d_2 := 1 / distance ^ 2 in
  cc <- read_charges charges index1 index2 ;;
  let charge_terms :=
    match cc with
    | Some (c1, c2) => [(- c1 * c2 * d_2, vzero)]
    | None => []
    end in
  dipole_terms <-
    match dipoles with
    | Some ps =>
        let d_4 := d_2 ^ 2 in
        let d_6 := d_2 ^ 3 in
        dl <- attr self deltas ;;
        delta <- get2 dl index1 index2 ;;
        p1 <- get1 ps index1 ;;
        p2 <- get1 ps index2 ;;
        Ok ([(-3 * d_4 * dot p1 p2, vzero);
             (15 * d_6, vadd (vmuls p1 (dot p2 delta)) (vmuls p2 (dot p1 delta)))]
            ++ match cc with
               | Some (c1, c2) =>
                   [(-3 * c1 * d_4, p2);
                    (-3 * c2 * d_4, vneg p1)]
               | None => []
               end)
    | None => Ok []
    end ;;
  Ok (charge_terms ++ dipole_terms).

Definition yield_pair_hessians (self : PairFF) (charges : option (list R))
    (dipoles : option (list vec3)) (index1 index2 : nat)
  : result (list (R * mat3)) :=
  ds <- attr self distances ;;
  distance <- get2 ds index1 index2 ;;
  let d_1 := 1 / distance in
  let d_3 := d_1 ^ 3 in
  cc <- read_charges charges index1 index2 ;;
  let charge_terms :=
    match cc with
    | Some (c1, c2) => [(2 * c1 * c2 * d_3, mzero)]
    | None => []
    end in
  dipole_terms <-
    match dipoles with
    | Some ps =>
        let d_5 := d_1 ^ 5 in
        let d_7 := d_1 ^ 7 in
        p1 <- get1 ps index1 ;;
        p2 <- get1 ps index2 ;;
        Ok ([(12 * d_5 * dot p1 p2, mzero);
             (-90 * d_7, madd (outer p1 p2) (outer p2 p1))]
            ++ match cc with
               | Some (c1, c2) =>
                   [(12 * c1 * d_5, mzero);
                    (12 * c2 * d_5, mzero)]
               | None => []
               end)
    | None => Ok []
    end ;;
  Ok (charge_terms ++ dipole_terms).

End CoulombFF.

Module DispersionFF.

Definition yield_pair_energies (self : PairFF) (strengths : list (list R))
    (index1 index2 : nat) : result (list (R * R)) :=
  strength <- get2 strengths index1 index2 ;;
  ds <- attr self distances ;;
  distance <- get2 ds index1 index2 ;;
  Ok [(strength * powerRZ distance (-6), 1)].

Definition yield_pair_gradients (self : PairFF) (strengths : list (list R))
    (index1 index2 : nat) : result (list (R * vec3)) :=
  strength <- get2 strengths index1 index2 ;;
  ds <- attr self distances ;;
  distance <- get2 ds index1 index2 ;;
  Ok [(-6 * strength * powerRZ distance (-7), vzero)].

Definition yield_pair_hessians (self : PairFF) (strengths : list (list R))
    (index1 index2 : nat) : result (list (R * mat3)) :=
  strength <- get2 strengths index1 index2 ;;
  ds <- attr self distances ;;
  distance <- get2 ds index1 index2 ;;
  Ok [(42 * strength * powerRZ distance (-8), mzero)].

End DispersionFF.

Module PauliFF.

Definition yield_pair_energies (self : PairFF) (strengths : list (list R))
    (index1 index2 : nat) : result (list (R * R)) :=
  strength <- get2 strengths index1 index2 ;;
  ds <- attr self distances ;;
  distance <- get2 ds index1 index2 ;;
  Ok [(strength * powerRZ distance (-12), 1)].

Definition yield_pair_gradients (self : PairFF) (strengths : list (list R))
    (index1 index2 : nat) : result (list (R * vec3)) :=
  strength <- get2 strengths index1 index2 ;;
  ds <- attr self distances ;;
  distance <- get2 ds index1 index2 ;;
  Ok [(-12 * strength * powerRZ distance (-13), vzero)].

Definition yield_pair_hessians (self : PairFF) (strengths : list (list R))
    (index1 index2 : nat) : result (list (R * mat3)) :=
  strength <- get2 strengths index1 index2 ;;
  ds <- attr self distances ;;
  distance <- get2 ds index1 index2 ;;
  Ok [(12 * 13 * strength * powerRZ distance (-14), mzero)].

End PauliFF.

(** Method dispatch on the class of [self]; the base class raises. *)
Definition yield_pair_energies (self : PairFF) (index1 index2 : nat)
  : result (list (R * R)) :=
  match pot self with
  | Abstract => Raise NotImplementedError
  | Coulomb charges dipoles =>
      CoulombFF.yield_pair_energies self charges dipoles index1 index2
  | Dispersion strengths => DispersionFF.yield_pair_energies self strengths index1 index2
  | Pauli strengths => PauliFF.yield_pair_energies self strengths index1 index2
  end.

Definition yield_pair_gradients (self : PairFF) (index1 index2 : nat)
  : result (list (R * vec3)) :=
  match pot self with
  | Abstract => Raise NotImplementedError
  | Coulomb charges dipoles =>
      CoulombFF.yield_pair_gradients self charges dipoles index1 index2
  | Dispersion strengths => DispersionFF.yield_pair_gradients self strengths index1 index2
  | Pauli strengths => PauliFF.yield_pair_gradients self strengths index1 index2
  end.

Definition yield_pair_hessians (self : PairFF) (index1 index2 : nat)
  : result (list (R * mat3)) :=
  match pot self with
  | Abstract => Raise NotImplementedError
  | Coulomb charges dipoles =>
      CoulombFF.yield_pair_hessians self charges dipoles index1 index2
  | Dispersion strengths => DispersionFF.yield_pair_hessians self strengths index1 index2
  | Pauli strengths => PauliFF.yield_pair_hessians self strengths index1 index2
  end.

(** ** Accumulation engine *)

Definition energy (self : PairFF) : result R :=
  n <- attr self numc ;;
  foldM (fun result index1 =>
    foldM (fun result index2 =>
      m <- get2 (mask self) index1 index2 ;;
      if Rlt_dec 0 m then
        terms <- yield_pair_energies self index1 index2 ;;
        Ok (fold_left (fun result '(se, ve) => result + se * ve * m) terms result)
      else Ok result)
      (xrange index1) result)
    (xrange n) 0.

(** The summand of [gradient_component] for one pair of zipped terms. *)
Definition gradient_term (self : PairFF) (index1 index2 : nat) (m : R)
    (t : (R * R) * (R * vec3)) : result vec3 :=
  let '((se, ve), (sg, vg)) := t in
  dirs <- attr self directions ;;
  direction <- get2 dirs index1 index2 ;;
  Ok (vmuls (vadd (vmuls (smul sg direction) ve) (smul se vg)) m).

Definition gradient_component (self : PairFF) (index1 : nat) : result vec3 :=
  n <- attr self numc ;;
  foldM (fun result index2 =>
    m <- get2 (mask self) index1 index2 ;;
    if Rlt_dec 0 m then
      es <- yield_pair_energies self index1 index2 ;;
      gs <- yield_pair_gradients self index1 index2 ;;
      foldM (fun result t =>
               g <- gradient_term self index1 index2 m t ;; Ok (vadd result g))
            (combine es gs) result
    else Ok result)
    (xrange n) vzero.

Definition gradient (self : PairFF) : result (list vec3) :=
  n <- attr self numc ;;
  mapM (fun index1 => gradient_component self index1) (xrange n).

(** The parenthesised expression of [hessian_component], times the mask
    entry; the text is the same in both branches, with [index3] in the
    place of [index2] in the first. *)
Definition hessian_term (self : PairFF) (index1 index2 : nat) (d_1 m : R)
    (t : (R * R) * (R * vec3) * (R * mat3)) : result mat3 :=
  let '((se, ve), (sg, vg), (sh, vh)) := t in
  douts <- attr self dirouters ;;
  dirouter <- get2 douts index1 index2 ;;
  dirs <- attr self directions ;;
  direction <- get2 dirs index1 index2 ;;
  Ok (mmuls
        (madd (madd (madd (madd
           (mmuls (mmul sh dirouter) ve)
           (mmuls (mmuls (mmul sg (msub identity3 dirouter)) ve) d_1))
           (mmul sg (outer direction vg)))
           (mmul sg (outer vg direction)))
           (mmul se vh))
        m).

Definition zip3 {A B C : Type} (a : list A) (b : list B) (c : list C)
  : list (A * B * C) :=
  combine (combine a b) c.

(** The three generators of one pair, zipped. *)
Definition zipped_terms (self : PairFF) (index1 index2 : nat)
  : result (list ((R * R) * (R * vec3) * (R * mat3))) :=
  es <- yield_pair_energies self index1 index2 ;;
  gs <- yield_pair_gradients self index1 index2 ;;
  hs <- yield_pair_hessians self index1 index2 ;;
  Ok (zip3 es gs hs).

Definition hessian_component (self : PairFF) (index1 index2 : nat) : result mat3 :=
  if (index1 =? index2)%nat then
    n <- attr self numc ;;
    foldM (fun result index3 =>
      m <- get2 (mask self) index1 index3 ;;
      if Rlt_dec 0 m then
        ds <- attr self distances ;;
        distance <- get2 ds index1 index3 ;;
        let d_1 := 1 / distance in
        terms <- zipped_terms self index1 index3 ;;
        foldM (fun result t =>
                 h <- hessian_term self index1 index3 d_1 m t ;; Ok (madd result h))
              terms result
      else Ok result)
      (xrange n) mzero
  else
    m <- get2 (mask self) index1 index2 ;;
    if Rlt_dec 0 m then
      ds <- attr self distances ;;
      distance <- get2 ds index1 index2 ;;
      let d_1 := 1 / distance in
      terms <- zipped_terms self index1 index2 ;;
      foldM (fun result t =>
               h <- hessian_term self index1 index2 d_1 m t ;; Ok (msub result h))
            terms mzero
    else Ok mzero.

(** The array of shape [(numc, 3, numc, 3)]: entry [[index1][a][index2]]
    is row [a] of the block of [index1, index2]. *)
Definition hessian (self : PairFF) : result (list (list (list (list R)))) :=
  n <- attr self numc ;;
  blocks <- mapM (fun index1 =>
                    mapM (fun index2 => hessian_component self index1 index2)
                         (xrange n))
                 (xrange n) ;;
  Ok (map (fun row_blocks =>
             map (fun a => map (fun block => nth a (mat_rows block) []) row_blocks)
                 (xrange 3))
          blocks).

Definition gradient_flat (self : PairFF) : result (list R) :=
  g <- gradient self ;; Ok (concat (map vec_list g)).

Definition hessian_flat (self : PairFF) : result (list (list R)) :=
  h <- hessian self ;; Ok (map (fun row => concat row) (concat h)).

(** ** Method calls

    What a caller can do with an evaluator. A call returns the object
    after the call and the value returned, or raises. *)

Inductive method : Type :=
| call_update_coordinates (new_coordinates : option (list vec3))
| call_energy
| call_gradient_component (index1 : nat)
| call_gradient
| call_hessian_component (index1 index2 : nat)
| call_hessian
| call_gradient_flat
| call_hessian_flat.

Inductive value : Type :=
| None_value
| Scalar (x : R)
| Vector (v : vec3)
| Block (b : mat3)
| Array1 (a : list R)
| Array2 (a : list (list R))
| Vectors (a : list vec3)
| Array4 (a : list (list (list (list R)))).

Definition call (c : method) (self : PairFF) : result (PairFF * value) :=
  match c with
  | call_update_coordinates new_coordinates =>
      self' <- update_coordinates new_coordinates self ;; Ok (self', None_value)
  | call_energy => x <- energy self ;; Ok (self, Scalar x)
  | call_gradient_component index1 =>
      v <- gradient_component self index1 ;; Ok (self, Vector v)
  | call_gradient => a <- gradient self ;; Ok (self, Vectors a)
  | call_hessian_component index1 index2 =>
      b <- hessian_component self index1 index2 ;; Ok (self, Block b)
  | call_hessian => a <- hessian self ;; Ok (self, Array4 a)
  | call_gradient_flat => a <- gradient_flat self ;; Ok (self, Array1 a)
  | call_hessian_flat => a <- hessian_flat self ;; Ok (self, Array2 a)
  end.

(** A caller's session: the calls in order, each on the object the
    previous ones left; a call that raises leaves the object as it was. *)
Fixpoint session (calls : list method) (self : PairFF) : PairFF :=
  match calls with
  | [] => self
  | c :: calls' =>
      match call c self with
      | Ok (self', _) => session calls' self'
      | Raise _ => session calls' self
      end
  end.


(** ** Shapes *)

(** An array of shape [(n, n)]. *)
Definition square {A : Type} (n : nat) (a : list (list A)) : Prop :=
  length a = n /\ Forall (fun row => length row = n) a.


(** ** Notions of the specification *)

(** The length [|v|] of a vector. *)
Definition norm (v : vec3) : R := sqrt (dot v v).

(** A call that hands coordinates to the evaluator. *)
Definition supplies_coordinates (c : method) : bool :=
  match c with
  | call_update_coordinates (Some _) => true
  | _ => false
  end.


(** Every coordinate moved by the same vector [t]. *)
Definition translate (t : vec3) (cs : list vec3) : list vec3 :=
  map (fun r => vadd r t) cs.

(** The entries [a[i, j]] with [i, j < n] exist. *)
Definition covers {A : Type} (n : nat) (a : list (list A)) : Prop :=
  forall i j, (i < n)%nat -> (j < n)%nat -> exists x, get2 a i j = Ok x.

(** The object is of one of the three concrete classes and its parameter
    arrays have an entry for each of [n] atoms. *)
Definition parameters_cover (n : nat) (p : potential) : Prop :=
  match p with
  | Abstract => False
  | Coulomb charges dipoles =>
      (forall cs, charges = Some cs -> (n <= length cs)%nat) /\
      (forall ps, dipoles = Some ps -> (n <= length ps)%nat)
  | Dispersion strengths => covers n strengths
  | Pauli strengths => covers n strengths
  end.


(** A mask that is entirely off. *)
Definition all_off (a : list (list R)) : Prop :=
  Forall (fun row => Forall (fun x => x = 0) row) a.


(** The first [m] rows and columns of an array. *)
Definition leading {A : Type} (m : nat) (a : list (list A)) : list (list A) :=
  firstn m (map (firstn m) a).


(** The sum over [j] of the blocks [hessian_component(i, j)]. *)
Definition hessian_row_sum (self : PairFF) (i : nat) : result mat3 :=
  n <- attr self numc ;;
  blocks <- mapM (fun j => hessian_component self i j) (xrange n) ;;
  Ok (msum blocks).

(** What the pair [index1, index3] adds to a block: the sum of
    [hessian_term] over the zipped terms of the pair if the mask entry is
    positive, nothing otherwise. *)
Definition pair_block (self : PairFF) (index1 index3 : nat) : result mat3 :=
  m <- get2 (mask self) index1 index3 ;;
  if Rlt_dec 0 m then
    ds <- attr self distances ;;
    distance <- get2 ds index1 index3 ;;
    let d_1 := 1 / distance in
    terms <- zipped_terms self index1 index3 ;;
    hs <- mapM (hessian_term self index1 index3 d_1 m) terms ;;
    Ok (msum hs)
  else Ok mzero.

(** The value of a computation that returns. *)
Definition returned (c : result mat3) : mat3 :=
  match c with
  | Ok x => x
  | Raise _ => mzero
  end.


(** ** The terms of the electrostatic potential, as the specification
    lists them *)

Inductive coulomb_term : Type :=
| charge_charge
| dipole_dipole
| dipole_dipole_orientation
| charge_dipole_1
| charge_dipole_2.

Definition all_coulomb_terms : list coulomb_term :=
  [charge_charge; dipole_dipole; dipole_dipole_orientation;
   charge_dipole_1; charge_dipole_2].

Definition needs_charges (k : coulomb_term) : bool :=
  match k with
  | charge_charge | charge_dipole_1 | charge_dipole_2 => true
  | _ => false
  end.

Definition needs_dipoles (k : coulomb_term) : bool :=
  match k with
  | charge_charge => false
  | _ => true
  end.

(** The terms that are not omitted: those whose prerequisite attributes
    are all set. *)
Definition present_terms (charges_set dipoles_set : bool) : list coulomb_term :=
  filter (fun k => implb (needs_charges k) charges_set
                   && implb (needs_dipoles k) dipoles_set)
         all_coulomb_terms.

(** What the terms of an ordered pair depend on. *)
Record pair_data : Type := {
  q_i : R; q_j : R;
  p_i : vec3; p_j : vec3;
  r_ij : R;
  delta_ij : vec3
}.

Definition energy_term_of (d : pair_data) (k : coulomb_term) : R * R :=
  match k with
  | charge_charge => (q_i d * q_j d / r_ij d, 1)
  | dipole_dipole => (dot (p_i d) (p_j d) / r_ij d ^ 3, 1)
  | dipole_dipole_orientation =>
      (-3 / r_ij d ^ 5, dot (p_i d) (delta_ij d) * dot (delta_ij d) (p_j d))
  | charge_dipole_1 => (q_i d / r_ij d ^ 3, dot (p_j d) (delta_ij d))
  | charge_dipole_2 => (q_j d / r_ij d ^ 3, dot (p_i d) (vneg (delta_ij d)))
  end.

Definition gradient_term_of (d : pair_data) (k : coulomb_term) : R * vec3 :=
  match k with
  | charge_charge => (- (q_i d * q_j d) / r_ij d ^ 2, vzero)
  | dipole_dipole => (-3 * dot (p_i d) (p_j d) / r_ij d ^ 4, vzero)
  | dipole_dipole_orientation =>
      (15 / r_ij d ^ 6,
       vadd (vmuls (p_i d) (dot (p_j d) (delta_ij d)))
            (vmuls (p_j d) (dot (p_i d) (delta_ij d))))
  | charge_dipole_1 => (-3 * q_i d / r_ij d ^ 4, p_j d)
  | charge_dipole_2 => (-3 * q_j d / r_ij d ^ 4, vneg (p_i d))
  end.

Definition hessian_term_of (d : pair_data) (k : coulomb_term) : R * mat3 :=
  match k with
  | charge_charge => (2 * q_i d * q_j d / r_ij d ^ 3, mzero)
  | dipole_dipole => (12 * dot (p_i d) (p_j d) / r_ij d ^ 5, mzero)
  | dipole_dipole_orientation =>
      (-90 / r_ij d ^ 7, madd (outer (p_i d) (p_j d)) (outer (p_j d) (p_i d)))
  | charge_dipole_1 => (12 * q_i d / r_ij d ^ 5, mzero)
  | charge_dipole_2 => (12 * q_j d / r_ij d ^ 5, mzero)
  end.

Definition is_set {A : Type} (attribute : option A) : bool :=
  match attribute with
  | Some _ => true
  | None => false
  end.

(** The entries of an optional per-atom array at the two atoms of a pair. *)
Definition entries_at {A : Type} (attribute : option (list A)) (i j : nat)
    (x_i x_j : A) : Prop :=
  forall a, attribute = Some a -> get1 a i = Ok x_i /\ get1 a j = Ok x_j.


(** The data of a pair with the distance replaced by [x]: the radial
    factor of a term as a function of the distance. *)
Definition at_distance (d : pair_data) (x : R) : pair_data :=
  {| q_i := q_i d; q_j := q_j d; p_i := p_i d; p_j := p_j d;
     r_ij := x; delta_ij := delta_ij d |}.


(** ** Notions used for the further properties *)

(** What a call returns, without the object. *)
Definition returned_value (c : result (PairFF * value)) : result value :=
  match c with
  | Ok (_, v) => Ok v
  | Raise e => Raise e
  end.

(** A call that only reads the evaluator. *)
Definition is_query (c : method) : bool :=
  match c with
  | call_update_coordinates _ => false
  | _ => true
  end.

(** Two masks that agree wherever one of them holds a positive weight:
    entry by entry they are equal (or both missing), or both entries are
    not positive. *)
Definition same_weights (m1 m2 : list (list R)) : Prop :=
  forall i j,
    get2 m1 i j = get2 m2 i j \/
    exists x y, get2 m1 i j = Ok x /\ get2 m2 i j = Ok y /\ ~ 0 < x /\ ~ 0 < y.

(** The mask with every entry that is not positive replaced by zero. *)
Definition clip_mask (m : list (list R)) : list (list R) :=
  map (map (fun x => if Rlt_dec 0 x then x else 0)) m.


(** The sum of a list of numbers, and of a list of vectors. *)
Definition Rsum (l : list R) : R := fold_right Rplus 0 l.
Definition vsum (l : list vec3) : vec3 := fold_right vadd vzero l.

(** The sum of [f i j] over the pairs [j < i < n], the pairs [energy]
    visits. *)
Definition sum_below (n : nat) (f : nat -> nat -> R) : R :=
  Rsum (map (fun i => Rsum (map (f i) (xrange i))) (xrange n)).

(** What the pair [index1, index2] adds to the energy: the sum of
    [se * ve * mask] over its terms if the mask entry is positive, nothing
    otherwise. *)
Definition pair_energy (self : PairFF) (index1 index2 : nat) : result R :=
  m <- get2 (mask self) index1 index2 ;;
  if Rlt_dec 0 m then
    terms <- yield_pair_energies self index1 index2 ;;
    Ok (Rsum (map (fun '(se, ve) => se * ve * m) terms))
  else Ok 0.

(** What the pair [index1, index2] adds to the gradient of [index1]. *)
Definition pair_gradient (self : PairFF) (index1 index2 : nat) : result vec3 :=
  m <- get2 (mask self) index1 index2 ;;
  if Rlt_dec 0 m then
    es <- yield_pair_energies self index1 index2 ;;
    gs <- yield_pair_gradients self index1 index2 ;;
    ts <- mapM (gradient_term self index1 index2 m) (combine es gs) ;;
    Ok (vsum ts)
  else Ok vzero.

(** The value of a computation that returns, [d] otherwise. *)
Definition returned_or {A : Type} (d : A) (c : result A) : A :=
  match c with
  | Ok x => x
  | Raise _ => d
  end.

(** The transpose of a block. *)
Definition transpose (a : mat3) : mat3 :=
  M3 (V3 (vx (row0 a)) (vx (row1 a)) (vx (row2 a)))
     (V3 (vy (row0 a)) (vy (row1 a)) (vy (row2 a)))
     (V3 (vz (row0 a)) (vz (row1 a)) (vz (row2 a))).

(** An array that equals its transpose, entry by entry. *)
Definition symmetric {A : Type} (a : list (list A)) : Prop :=
  forall i j, get2 a i j = get2 a j i.

(** The strengths of a dispersion or repulsion potential are symmetric; the
    electrostatic potential has per-atom parameters only. *)
Definition symmetric_parameters (p : potential) : Prop :=
  match p with
  | Dispersion strengths => symmetric strengths
  | Pauli strengths => symmetric strengths
  | _ => True
  end.


(** The entry [a[i][j]] of a matrix of numbers, the entry [q[i]] of a list
    of numbers and the position [r_i] of atom [i]. *)
Definition entry (a : list (list R)) (i j : nat) : R := nth j (nth i a []) 0.
Definition charge (q : list R) (i : nat) : R := nth i q 0.
Definition position (cs : list vec3) (i : nat) : vec3 := nth i cs vzero.

(** The distance between the atoms [i] and [j]. *)
Definition separation (cs : list vec3) (i j : nat) : R :=
  norm (vsub (position cs i) (position cs j)).


(** A potential whose terms depend on the coordinates through the
    distances only: no dipoles. *)
Definition radial_only (p : potential) : Prop :=
  match p with
  | Coulomb _ (Some _) => False
  | _ => True
  end.

(** * Properties *)

(** ** The error monad and the loops *)

Lemma bind_Ok_inv {A B : Type} (c : result A) (k : A -> result B) (b : B) :
  bind c k = Ok b -> exists a, c = Ok a /\ k a = Ok b.
Proof.
  destruct c as [a | e]; simpl; intros H; [eauto | discriminate].
Qed.

Lemma bind_Raise_inv {A B : Type} (c : result A) (k : A -> result B) (e : exn) :
  bind c k = Raise e -> c = Raise e \/ exists a, c = Ok a /\ k a = Raise e.
Proof.
  destruct c as [a | e']; simpl; intros H; [right; eauto | left; congruence].
Qed.

Lemma foldM_app {S A : Type} (body : S -> A -> result S) (l1 l2 : list A) (s : S) :
  foldM body (l1 ++ l2) s = (s' <- foldM body l1 s ;; foldM body l2 s').
Proof.
  revert s; induction l1 as [| a l1 IH]; intros s; simpl; [reflexivity |].
  destruct (body s a); simpl; [apply IH | reflexivity].
Qed.

Lemma foldM_ext {S A : Type} (f g : S -> A -> result S) (l : list A) (s : S) :
  (forall s' a, In a l -> f s' a = g s' a) -> foldM f l s = foldM g l s.
Proof.
  revert s; induction l as [| a l IH]; intros s H; simpl; [reflexivity |].
  rewrite (H s a (or_introl eq_refl)).
  destruct (g s a); simpl; [| reflexivity].
  apply IH; intros; apply H; right; assumption.
Qed.

(** A loop whose passes all leave the accumulator alone returns it. *)
Lemma foldM_id {S A : Type} (body : S -> A -> result S) (l : list A) (s : S) :
  (forall a, In a l -> body s a = Ok s) -> foldM body l s = Ok s.
Proof.
  induction l as [| a l IH]; intros H; simpl; [reflexivity |].
  rewrite (H a (or_introl eq_refl)); simpl.
  apply IH; intros; apply H; right; assumption.
Qed.

(** A loop whose passes all return, returns. *)
Lemma foldM_total {S A : Type} (body : S -> A -> result S) (l : list A) (s : S) :
  (forall s' a, In a l -> exists s'', body s' a = Ok s'') ->
  exists s', foldM body l s = Ok s'.
Proof.
  revert s; induction l as [| a l IH]; intros s H; simpl; [eauto |].
  destruct (H s a (or_introl eq_refl)) as [s'' ->]; simpl.
  apply IH; intros; apply H; right; assumption.
Qed.

(** The exception of a loop is the exception of one of its passes. *)
Lemma foldM_Raise {S A : Type} (body : S -> A -> result S) (l : list A) (s : S)
    (e : exn) :
  foldM body l s = Raise e -> exists s' a, In a l /\ body s' a = Raise e.
Proof.
  revert s; induction l as [| a l IH]; intros s; simpl; [discriminate |].
  destruct (body s a) as [s1 | e1] eqn:E; simpl; intros H.
  - destruct (IH _ H) as (s' & a' & Hin & Hr); exists s', a'; auto.
  - inversion H; subst; exists s, a; auto.
Qed.

(** A loop that returns has run each of its passes to its end. *)
Lemma foldM_Ok_pass {S A : Type} (body : S -> A -> result S) (l : list A)
    (s r : S) (a : A) :
  foldM body l s = Ok r -> In a l -> exists s1 s2, body s1 a = Ok s2.
Proof.
  revert s; induction l as [| b l IH]; intros s H Hin; [destruct Hin |].
  simpl in H; apply bind_Ok_inv in H; destruct H as (s1 & Hb & Hl).
  destruct Hin as [-> | Hin]; [eauto | eapply IH; eauto].
Qed.

Lemma mapM_ext {A B : Type} (f g : A -> result B) (l : list A) :
  (forall a, In a l -> f a = g a) -> mapM f l = mapM g l.
Proof.
  induction l as [| a l IH]; intros H; simpl; [reflexivity |].
  rewrite (H a (or_introl eq_refl)), IH; [reflexivity |].
  intros; apply H; right; assumption.
Qed.

Lemma mapM_Ok {A B : Type} (f : A -> result B) (g : A -> B) (l : list A) :
  (forall a, In a l -> f a = Ok (g a)) -> mapM f l = Ok (map g l).
Proof.
  induction l as [| a l IH]; intros H; simpl; [reflexivity |].
  rewrite (H a (or_introl eq_refl)); simpl.
  rewrite IH; [reflexivity |]; intros; apply H; right; assumption.
Qed.

Lemma in_xrange (n i : nat) : In i (xrange n) <-> (i < n)%nat.
Proof. unfold xrange; rewrite in_seq; lia. Qed.

(** ** Array lookups *)

Lemma get1_Ok {A : Type} (a : list A) (i : nat) (x : A) :
  get1 a i = Ok x <-> nth_error a i = Some x.
Proof.
  unfold get1; destruct (nth_error a i); split; intros H; inversion H; reflexivity.
Qed.

Lemma get1_in_range {A : Type} (a : list A) (i : nat) :
  (i < length a)%nat -> exists x, get1 a i = Ok x.
Proof.
  intros H; unfold get1; destruct (nth_error a i) eqn:E; [eauto |].
  apply nth_error_None in E; lia.
Qed.

Lemma get1_out_of_range {A : Type} (a : list A) (i : nat) :
  (length a <= i)%nat -> get1 a i = Raise IndexError.
Proof.
  intros H; unfold get1; apply nth_error_None in H; rewrite H; reflexivity.
Qed.

Lemma get1_Raise {A : Type} (a : list A) (i : nat) (e : exn) :
  get1 a i = Raise e -> e = IndexError.
Proof.
  unfold get1; destruct (nth_error a i); intros H; inversion H; reflexivity.
Qed.

Lemma get2_Raise {A : Type} (a : list (list A)) (i j : nat) (e : exn) :
  get2 a i j = Raise e -> e = IndexError.
Proof.
  unfold get2; intros H; apply bind_Raise_inv in H.
  destruct H as [H | (row & _ & H)]; eapply get1_Raise; eauto.
Qed.

Lemma get2_out_of_range {A : Type} (a : list (list A)) (i j : nat) :
  (length a <= i)%nat -> get2 a i j = Raise IndexError.
Proof.
  intros H; unfold get2; rewrite get1_out_of_range by assumption; reflexivity.
Qed.

Lemma nth_error_enumerate_from {A : Type} (l : list A) (start i : nat) :
  nth_error (combine (seq start (length l)) l) i =
  option_map (fun x => ((start + i)%nat, x)) (nth_error l i).
Proof.
  revert start i; induction l as [| x l IH]; intros start i; simpl.
  - destruct i; reflexivity.
  - destruct i as [| i]; simpl.
    + rewrite Nat.add_0_r; reflexivity.
    + rewrite IH; replace (S start + i)%nat with (start + S i)%nat by lia; reflexivity.
Qed.

Lemma nth_error_enumerate {A : Type} (l : list A) (i : nat) :
  nth_error (enumerate l) i = option_map (fun x => (i, x)) (nth_error l i).
Proof. unfold enumerate; apply nth_error_enumerate_from. Qed.

Lemma length_enumerate {A : Type} (l : list A) : length (enumerate l) = length l.
Proof.
  unfold enumerate; rewrite length_combine, length_seq; apply Nat.min_id.
Qed.

(** ** The diagonal of the mask *)

Lemma nth_error_concat_square {A : Type} (n : nat) (a : list (list A)) (i j : nat) :
  Forall (fun row => length row = n) a -> (j < n)%nat ->
  nth_error (concat a) (i * n + j) =
  match nth_error a i with
  | Some row => nth_error row j
  | None => None
  end.
Proof.
  intros Ha Hj; revert i; induction Ha as [| row a Hrow Ha IH]; intros i; simpl.
  - destruct i; apply nth_error_None; simpl; lia.
  - destruct i as [| i]; simpl.
    + apply nth_error_app1; lia.
    + rewrite nth_error_app2 by lia.
      replace (n + i * n + j - length row)%nat with (i * n + j)%nat by lia.
      apply IH.
Qed.

Lemma length_concat_square {A : Type} (n : nat) (a : list (list A)) :
  Forall (fun row => length row = n) a -> length (concat a) = (length a * n)%nat.
Proof.
  induction 1 as [| row a Hrow Ha IH]; simpl; [reflexivity |].
  rewrite length_app, IH, Hrow; reflexivity.
Qed.

Lemma nth_error_zero_strided (step : nat) (flat : list R) (k : nat) :
  nth_error (zero_strided step flat) k =
  option_map (fun x => if (k mod step =? 0)%nat then 0 else x) (nth_error flat k).
Proof.
  unfold zero_strided; rewrite nth_error_map, nth_error_enumerate.
  destruct (nth_error flat k); reflexivity.
Qed.

Lemma length_zero_strided (step : nat) (flat : list R) :
  length (zero_strided step flat) = length flat.
Proof. unfold zero_strided; rewrite length_map; apply length_enumerate. Qed.

Lemma nth_error_reshape (k n : nat) (flat : list R) (i : nat) :
  (i < k)%nat ->
  nth_error (reshape k n flat) i = Some (firstn n (skipn (i * n) flat)).
Proof.
  revert flat i; induction k as [| k IH]; intros flat i Hi; [lia |].
  destruct i as [| i]; simpl; [reflexivity |].
  rewrite IH by lia; rewrite skipn_skipn.
  replace (i * n + n)%nat with (n + i * n)%nat by lia; reflexivity.
Qed.

Lemma length_reshape (k n : nat) (flat : list R) : length (reshape k n flat) = k.
Proof. revert flat; induction k; intros; simpl; auto. Qed.

Lemma Forall_reshape (k n : nat) (flat : list R) :
  (k * n <= length flat)%nat ->
  Forall (fun row => length row = n) (reshape k n flat).
Proof.
  revert flat; induction k as [| k IH]; intros flat H; simpl; constructor.
  - rewrite length_firstn; simpl in H; lia.
  - apply IH; rewrite length_skipn; simpl in H; lia.
Qed.

(** The flat index of the entry [i, j] of an array of shape [(n, n)] is a
    multiple of [n + 1] exactly on the diagonal. *)
Lemma stride_hits_diagonal (n i j : nat) :
  (i < n)%nat -> (j < n)%nat ->
  ((i * n + j) mod (n + 1) =? 0)%nat = (i =? j)%nat.
Proof.
  intros Hi Hj.
  destruct (Nat.eqb_spec i j) as [-> | Hne].
  - replace (j * n + j)%nat with (0 + j * (n + 1))%nat by lia.
    rewrite Nat.Div0.mod_add, Nat.mod_small by lia; reflexivity.
  - apply Nat.eqb_neq; intros H.
    destruct (Nat.lt_ge_cases i j) as [Hlt | Hge].
    + replace (i * n + j)%nat with ((j - i) + i * (n + 1))%nat in H by lia.
      rewrite Nat.Div0.mod_add, Nat.mod_small in H by lia; lia.
    + replace (i * n + j)%nat with ((n + 1 - (i - j)) + (i - 1) * (n + 1))%nat
        in H by nia.
      rewrite Nat.Div0.mod_add, Nat.mod_small in H by lia; lia.
Qed.

Lemma square_zero_diagonal (n : nat) (mask0 : list (list R)) :
  square n mask0 -> square n (zero_diagonal mask0).
Proof.
  intros [Hl Hr]; unfold zero_diagonal; rewrite Hl; split.
  - apply length_reshape.
  - apply Forall_reshape.
    rewrite length_zero_strided, (length_concat_square n) by assumption; lia.
Qed.

Lemma get2_zero_diagonal (n : nat) (mask0 : list (list R)) (i j : nat) :
  square n mask0 -> (i < n)%nat -> (j < n)%nat ->
  get2 (zero_diagonal mask0) i j =
  if (i =? j)%nat then Ok 0 else get2 mask0 i j.
Proof.
  intros [Hl Hr] Hi Hj; unfold zero_diagonal, get2, get1; rewrite Hl.
  rewrite nth_error_reshape by assumption; simpl.
  rewrite nth_error_firstn.
  destruct (Nat.ltb_spec j n) as [_ | ?]; [| lia].
  rewrite nth_error_skipn, nth_error_zero_strided.
  rewrite (nth_error_concat_square n) by assumption.
  rewrite stride_hits_diagonal by assumption.
  destruct (nth_error mask0 i) as [row |] eqn:Erow.
  - assert (Hrow : length row = n).
    { apply nth_error_In in Erow; rewrite Forall_forall in Hr; auto. }
    simpl; destruct (nth_error row j) eqn:Ej.
    + simpl; destruct (i =? j)%nat; reflexivity.
    + apply nth_error_None in Ej; lia.
  - apply nth_error_None in Erow; lia.
Qed.

Lemma PairFF_init_Ok (mask0 : ndarray) (coordinates0 : option (list vec3))
    (pot0 : potential) :
  PairFF_init mask0 coordinates0 pot0 =
  Ok {| mask := ravel_assign_diagonal mask0;
        coordinates := coordinates0;
        geom := option_map build_geometry coordinates0;
        pot := pot0 |}.
Proof. destruct coordinates0; reflexivity. Qed.

Lemma new_PairFF_Ok (mask0 : list (list R)) (coordinates0 : option (list vec3))
    (pot0 : potential) :
  new_PairFF mask0 coordinates0 pot0 =
  Ok {| mask := zero_diagonal mask0;
        coordinates := coordinates0;
        geom := option_map build_geometry coordinates0;
        pot := pot0 |}.
Proof. destruct coordinates0; reflexivity. Qed.

Lemma update_coordinates_mask (new_coordinates : option (list vec3))
    (self self' : PairFF) :
  update_coordinates new_coordinates self = Ok self' ->
  mask self' = mask self /\ pot self' = pot self.
Proof.
  unfold update_coordinates.
  destruct new_coordinates as [c |]; [| destruct (coordinates self)];
    intros H; inversion H; subst; simpl; auto.
Qed.

(** A query returns the object it was called on. *)
Lemma call_query (c : method) (self self' : PairFF) (v : value) :
  supplies_coordinates c = false -> coordinates self = None ->
  call c self = Ok (self', v) -> self' = self.
Proof.
  intros Hc Hn; destruct c as [[c |] | | | | | | |]; simpl in *;
    try discriminate; intros H; apply bind_Ok_inv in H;
    destruct H as (x & Hx & H); inversion H; subst; try reflexivity.
  unfold update_coordinates in Hx; rewrite Hn in Hx; discriminate.
Qed.

Lemma call_mask (c : method) (self self' : PairFF) (v : value) :
  call c self = Ok (self', v) -> mask self' = mask self.
Proof.
  destruct c; simpl; intros H; apply bind_Ok_inv in H;
    destruct H as (x & Hx & H); inversion H; subst; try reflexivity.
  apply update_coordinates_mask in Hx; tauto.
Qed.

Lemma session_mask (calls : list method) (self : PairFF) :
  mask (session calls self) = mask self.
Proof.
  revert self; induction calls as [| c calls IH]; intros self; simpl; [reflexivity |].
  destruct (call c self) as [[self' v] | e] eqn:E; [| apply IH].
  rewrite IH; eapply call_mask; eauto.
Qed.

Lemma session_without_coordinates (calls : list method) (self : PairFF) :
  forallb (fun c => negb (supplies_coordinates c)) calls = true ->
  coordinates self = None -> session calls self = self.
Proof.
  revert self; induction calls as [| c calls IH]; intros self H Hn; simpl in *;
    [reflexivity |].
  apply andb_prop in H; destruct H as [Hc H]; apply negb_true_iff in Hc.
  destruct (call c self) as [[self' v] | e] eqn:E; [| auto].
  apply call_query in E; auto; subst; auto.
Qed.

(** For a C-contiguous mask, through whose [ravel()] the assignment of the
    constructor reaches the mask: the constructor returns an evaluator
    whose mask has a zero diagonal, whatever the diagonal of the [n] by [n]
    mask it is given, and no call made on the evaluator afterwards changes
    the mask. *)
Lemma mask_diagonal_zero_for_life (n : nat) (mask0 : list (list R))
    (coordinates0 : option (list vec3)) (pot0 : potential) :
  square n mask0 ->
  exists self,
    new_PairFF mask0 coordinates0 pot0 = Ok self /\
    (forall i, (i < n)%nat -> get2 (mask self) i i = Ok 0) /\
    (forall c s s' v, call c s = Ok (s', v) -> mask s' = mask s) /\
    forall calls,
      mask (session calls self) = mask self /\
      forall i, (i < n)%nat -> get2 (mask (session calls self)) i i = Ok 0.
Proof.
  intros Hsq; eexists; split; [apply new_PairFF_Ok |].
  assert (Hd : forall i, (i < n)%nat -> get2 (zero_diagonal mask0) i i = Ok 0).
  { intros i Hi; rewrite (get2_zero_diagonal n) by assumption.
    rewrite Nat.eqb_refl; reflexivity. }
  split; [exact Hd |]; split; [apply call_mask |].
  intros calls; rewrite session_mask; split; [reflexivity | exact Hd].
Qed.

Lemma mask_diagonal_zero_for_life_witness :
  square 2 [[1; 1]; [1; 1]] /\
  exists self,
    new_PairFF [[1; 1]; [1; 1]] None Abstract = Ok self /\
    (forall i, (i < 2)%nat -> get2 (mask self) i i = Ok 0) /\
    (forall c s s' v, call c s = Ok (s', v) -> mask s' = mask s) /\
    forall calls,
      mask (session calls self) = mask self /\
      forall i, (i < 2)%nat -> get2 (mask (session calls self)) i i = Ok 0.
Proof.
  assert (H : square 2 [[1; 1]; [1; 1]]) by (split; [reflexivity | repeat constructor]).
  split; [exact H | exact (mask_diagonal_zero_for_life 2 _ None Abstract H)].
Defined.

(** Whatever the layout of the mask, no call changes it after the
    constructor. *)
Lemma PairFF_init_mask_for_life (mask0 : ndarray)
    (coordinates0 : option (list vec3)) (pot0 : potential) :
  exists self,
    PairFF_init mask0 coordinates0 pot0 = Ok self /\
    mask self = ravel_assign_diagonal mask0 /\
    forall calls, mask (session calls self) = ravel_assign_diagonal mask0.
Proof.
  eexists; split; [apply PairFF_init_Ok |]; split; [reflexivity |].
  intros calls; rewrite session_mask; reflexivity.
Qed.

(** C7, where the code falls short of it: for a 2 by 2 mask of ones in
    Fortran order, as [numpy.asfortranarray(numpy.ones((2, 2)))] or a
    transpose, [ravel()] returns a copy, the constructor's assignment of
    zero goes to the copy, and the evaluator's mask keeps its diagonal of
    ones, for its whole lifetime. *)
Theorem fortran_mask_keeps_diagonal (coordinates0 : option (list vec3))
    (pot0 : potential) :
  exists self,
    PairFF_init {| items := [[1; 1]; [1; 1]]; ravel_is_view := false |}
                coordinates0 pot0 = Ok self /\
    get2 (mask self) 0 0 = Ok 1 /\ get2 (mask self) 1 1 = Ok 1 /\
    get2 (mask self) 0 0 <> Ok 0 /\
    forall calls,
      get2 (mask (session calls self)) 0 0 = Ok 1 /\
      get2 (mask (session calls self)) 1 1 = Ok 1.
Proof.
  destruct (PairFF_init_mask_for_life
              {| items := [[1; 1]; [1; 1]]; ravel_is_view := false |}
              coordinates0 pot0) as (self & Hnew & Hm & Hlife).
  exists self; split; [exact Hnew |]; rewrite Hm; simpl.
  repeat split; try reflexivity.
  - intros H; inversion H; lra.
  - rewrite Hlife; reflexivity.
  - rewrite Hlife; reflexivity.
Qed.

(** Before coordinates are supplied the per-atom accessors behave as
    follows: [gradient_component] raises as the queries do, and so does
    [hessian_component] on the diagonal; off the diagonal
    [hessian_component] reads the mask first and returns the zero block for
    a pair that is masked out. *)
Lemma components_before_coordinates (self : PairFF) (index1 index2 : nat) :
  geom self = None ->
  gradient_component self index1 = Raise AttributeError /\
  hessian_component self index1 index1 = Raise AttributeError /\
  (index1 <> index2 -> get2 (mask self) index1 index2 = Ok 0 ->
   hessian_component self index1 index2 = Ok mzero).
Proof.
  intros Hg; unfold gradient_component, hessian_component, attr; rewrite Hg.
  rewrite Nat.eqb_refl; repeat split.
  intros Hne Hm; apply Nat.eqb_neq in Hne; rewrite Hne, Hm; simpl.
  destruct (Rlt_dec 0 0); [lra | reflexivity].
Qed.

(** C10, as the code has it: built without coordinates, an evaluator
    stores neither coordinates nor a geometry cache, and as long as no call
    has supplied coordinates, [update_coordinates()] without an argument,
    [energy], [gradient], [hessian], [gradient_flat], [hessian_flat],
    [gradient_component(i)] and [hessian_component(i, i)] raise an
    [AttributeError]. [hessian_component(i, j)] with [i <> j] looks the
    mask entry up first: it raises [IndexError] when there is none, an
    [AttributeError] when the entry is positive, and returns the zero block
    when the pair is masked out. *)
Theorem queries_before_coordinates (mask0 : ndarray) (pot0 : potential) :
  exists self,
    PairFF_init mask0 None pot0 = Ok self /\
    coordinates self = None /\ geom self = None /\
    forall calls,
      forallb (fun c => negb (supplies_coordinates c)) calls = true ->
      let s := session calls self in
      update_coordinates None s = Raise AttributeError /\
      energy s = Raise AttributeError /\
      gradient s = Raise AttributeError /\
      hessian s = Raise AttributeError /\
      gradient_flat s = Raise AttributeError /\
      hessian_flat s = Raise AttributeError /\
      (forall i, gradient_component s i = Raise AttributeError) /\
      (forall i, hessian_component s i i = Raise AttributeError) /\
      (forall i j, i <> j ->
         hessian_component s i j =
         (m <- get2 (mask s) i j ;;
          if Rlt_dec 0 m then Raise AttributeError else Ok mzero)).
Proof.
  eexists; split; [apply PairFF_init_Ok |]; simpl.
  split; [reflexivity |]; split; [reflexivity |].
  intros calls Hc; rewrite session_without_coordinates by auto.
  do 6 (split; [reflexivity |]).
  split; [| split].
  - intros i; unfold gradient_component, attr; reflexivity.
  - intros i; unfold hessian_component, attr; rewrite Nat.eqb_refl; reflexivity.
  - intros i j Hne; unfold hessian_component, attr; simpl.
    apply Nat.eqb_neq in Hne; rewrite Hne.
    destruct (get2 (ravel_assign_diagonal mask0) i j) as [m |]; simpl;
      [| reflexivity].
    destruct (Rlt_dec 0 m); reflexivity.
Qed.

Lemma queries_before_coordinates_witness :
  exists self,
    PairFF_init (C_contiguous [[1; 1]; [1; 1]]) None (Pauli [[1; 1]; [1; 1]])
    = Ok self /\
    energy (session [call_energy; call_update_coordinates None; call_hessian] self)
    = Raise AttributeError /\
    hessian_component
      (session [call_energy; call_update_coordinates None; call_hessian] self) 0 1
    = Raise AttributeError.
Proof.
  destruct (queries_before_coordinates (C_contiguous [[1; 1]; [1; 1]])
              (Pauli [[1; 1]; [1; 1]])) as (self & Hnew & Hc & _ & H).
  exists self; split; [exact Hnew |].
  destruct (H [call_energy; call_update_coordinates None; call_hessian] eq_refl)
    as (_ & He & _ & _ & _ & _ & _ & _ & Hh).
  split; [exact He |].
  rewrite Hh by discriminate.
  rewrite session_without_coordinates by auto.
  inversion Hnew; subst self; simpl.
  destruct (Rlt_dec 0 1); [reflexivity | lra].
Defined.

(** C10 fails as stated: on an evaluator built without coordinates whose
    mask is off for the pair of atoms 0 and 1, [hessian_component(0, 1)]
    returns the zero block; it does not raise. *)
Lemma masked_pair_before_coordinates :
  exists self,
    new_PairFF [[1; 0]; [0; 1]] None (Coulomb (Some [1; -1]) None) = Ok self /\
    coordinates self = None /\ geom self = None /\
    hessian_component self 0 1 = Ok mzero /\
    forall e, hessian_component self 0 1 <> Raise e.
Proof.
  eexists; split; [apply new_PairFF_Ok |]; simpl.
  split; [reflexivity |]; split; [reflexivity |].
  unfold hessian_component; simpl.
  change (zero_diagonal [[1; 0]; [0; 1]]) with [[0; 0]; [0; 0]]; simpl.
  destruct (Rlt_dec 0 0); [lra |]; split; [reflexivity | discriminate].
Qed.

(** ** Vector algebra *)

Ltac vec_unfold :=
  unfold msum, mmuls, mmul, msub, madd, identity3, mzero, outer, norm, dot, vdiv,
    vmuls, smul, vneg, vsub, vadd, vzero in *; simpl in *.

(** Equalities of vectors and blocks, a component at a time. *)
Ltac vec_eq :=
  intros;
  repeat match goal with
         | v : vec3 |- _ => destruct v
         | a : mat3 |- _ => destruct a
         end;
  vec_unfold;
  try match goal with
      | |- V3 _ _ _ = V3 _ _ _ => f_equal
      | |- M3 _ _ _ = M3 _ _ _ => f_equal; f_equal
      end;
  try ring.

Lemma vsub_translate (u v t : vec3) : vsub (vadd u t) (vadd v t) = vsub u v.
Proof. vec_eq. Qed.

Lemma vsub_swap (u v : vec3) : vsub v u = vneg (vsub u v).
Proof. vec_eq. Qed.

Lemma vsub_self (u : vec3) : vsub u u = vzero.
Proof. vec_eq. Qed.

Lemma dot_vneg (u : vec3) : dot (vneg u) (vneg u) = dot u u.
Proof. vec_eq. Qed.

Lemma vdiv_vneg (u : vec3) (k : R) : vdiv (vneg u) k = vneg (vdiv u k).
Proof. vec_eq; unfold Rdiv; ring. Qed.

Lemma outer_vneg (u : vec3) : outer (vneg u) (vneg u) = outer u u.
Proof. vec_eq. Qed.

Lemma dot_nonneg (u : vec3) : 0 <= dot u u.
Proof. destruct u; vec_unfold; nra. Qed.

Lemma dot_zero (u : vec3) : dot u u = 0 -> u = vzero.
Proof.
  destruct u as [x y z]; vec_unfold; intros H.
  assert (x = 0) by nra; assert (y = 0) by nra; assert (z = 0) by nra.
  subst; reflexivity.
Qed.

Lemma norm_vzero : norm vzero = 0.
Proof.
  unfold norm; replace (dot vzero vzero) with 0 by (vec_unfold; ring).
  apply sqrt_0.
Qed.

Lemma norm_vneg (u : vec3) : norm (vneg u) = norm u.
Proof. unfold norm; rewrite dot_vneg; reflexivity. Qed.

Lemma norm_zero (u v : vec3) : norm (vsub u v) = 0 -> u = v.
Proof.
  unfold norm; intros H; apply sqrt_eq_0 in H; [| apply dot_nonneg].
  apply dot_zero in H; destruct u, v; vec_unfold.
  inversion H; f_equal; lra.
Qed.

Lemma madd_mzero_r (a : mat3) : madd a mzero = a.
Proof. vec_eq. Qed.

Lemma madd_mzero_l (a : mat3) : madd mzero a = a.
Proof. vec_eq. Qed.

Lemma madd_assoc (a b c : mat3) : madd (madd a b) c = madd a (madd b c).
Proof. vec_eq. Qed.

Lemma madd_comm (a b : mat3) : madd a b = madd b a.
Proof. vec_eq. Qed.

Lemma msub_madd (a b c : mat3) : msub (msub a b) c = msub a (madd b c).
Proof. vec_eq. Qed.

Lemma madd_msub_cancel (a b : mat3) : madd a (msub mzero a) = mzero.
Proof. vec_eq. Qed.

(** ** The geometry cache *)

Lemma get2_pair_table {A : Type} (field : pair_geom -> A) (cs : list vec3)
    (i j : nat) (c1 c2 : vec3) :
  nth_error cs i = Some c1 -> nth_error cs j = Some c2 ->
  get2 (pair_table field cs) i j = Ok (field (pair_geometry i j c1 c2)).
Proof.
  intros H1 H2; unfold get2, get1, pair_table.
  rewrite nth_error_map, nth_error_enumerate, H1; simpl.
  rewrite nth_error_map, nth_error_enumerate, H2; reflexivity.
Qed.

Lemma get2_pair_table_Raise {A : Type} (field : pair_geom -> A) (cs : list vec3)
    (i j : nat) :
  (length cs <= i)%nat \/ (length cs <= j)%nat ->
  get2 (pair_table field cs) i j = Raise IndexError.
Proof.
  intros H; unfold get2, get1, pair_table.
  rewrite nth_error_map, nth_error_enumerate.
  destruct (nth_error cs i) as [c1 |] eqn:E1; simpl; [| reflexivity].
  rewrite nth_error_map, nth_error_enumerate.
  destruct (nth_error cs j) as [c2 |] eqn:E2; simpl; [| reflexivity].
  assert (nth_error cs i <> None) by congruence.
  assert (nth_error cs j <> None) by congruence.
  rewrite nth_error_Some in *; lia.
Qed.

Lemma in_enumerate {A : Type} (l : list A) (i : nat) (x : A) :
  In (i, x) (enumerate l) <-> nth_error l i = Some x.
Proof.
  split; intros H.
  - apply In_nth_error in H; destruct H as [k Hk].
    rewrite nth_error_enumerate in Hk.
    destruct (nth_error l k) eqn:E; inversion Hk; subst; assumption.
  - apply (nth_error_In _ i); rewrite nth_error_enumerate, H; reflexivity.
Qed.

(** The divisions performed are those of the pairs of different
    indices, each by the distance of its pair. *)
Lemma in_update_divisions (cs : list vec3) (i j : nat) (d : R) :
  In (i, j, d) (update_divisions cs) ->
  i <> j /\ exists c1 c2,
    nth_error cs i = Some c1 /\ nth_error cs j = Some c2 /\ d = norm (vsub c1 c2).
Proof.
  unfold update_divisions; intros H.
  apply in_flat_map in H; destruct H as ([i' c1] & H1 & H).
  apply in_flat_map in H; destruct H as ([j' c2] & H2 & H).
  apply in_map_iff in H; destruct H as (d' & Heq & H).
  inversion Heq; subst; clear Heq.
  apply in_enumerate in H1, H2; unfold pair_geometry in H.
  destruct (Nat.eqb_spec i j) as [E | E]; simpl in H; [destruct H |].
  destruct H as [<- | []]; split; [assumption |]; eauto.
Qed.

Lemma update_coordinates_Ok (new_coordinates : option (list vec3))
    (self self' : PairFF) :
  update_coordinates new_coordinates self = Ok self' ->
  exists cs,
    coordinates self' = Some cs /\ geom self' = Some (build_geometry cs) /\
    (new_coordinates = Some cs \/
     new_coordinates = None /\ coordinates self = Some cs).
Proof.
  unfold update_coordinates.
  destruct new_coordinates as [c |]; [| destruct (coordinates self) as [c |] eqn:E];
    intros H; inversion H; subst; simpl; exists c; auto.
Qed.

(** C5: after a call of [update_coordinates] that leaves [n] pairwise
    distinct coordinates, every self-pair has distance zero and zero
    direction and outer product, and no division is performed for it; every
    division that is performed has a divisor other than zero; and for
    [i <> j] the cache holds [r_i - r_j], its length, the quotient of the
    two and its outer product, with [directions[j][i] = -directions[i][j]],
    [distances[j][i] = distances[i][j]] and
    [dirouters[j][i] = dirouters[i][j]]. *)
Theorem geometry_cache_invariants (new_coordinates : option (list vec3))
    (self self' : PairFF) (cs : list vec3) :
  update_coordinates new_coordinates self = Ok self' ->
  coordinates self' = Some cs ->
  NoDup cs ->
  exists g,
    geom self' = Some g /\ numc g = length cs /\
    (forall i, (i < length cs)%nat ->
       get2 (distances g) i i = Ok 0 /\
       get2 (directions g) i i = Ok vzero /\
       get2 (dirouters g) i i = Ok mzero /\
       forall d, ~ In (i, i, d) (update_divisions cs)) /\
    (forall i j d, In (i, j, d) (update_divisions cs) -> d <> 0) /\
    (forall i j ri rj,
       i <> j -> nth_error cs i = Some ri -> nth_error cs j = Some rj ->
       exists delta distance direction dirouter,
         delta = vsub ri rj /\ distance = norm delta /\
         direction = vdiv delta distance /\ dirouter = outer direction direction /\
         get2 (deltas g) i j = Ok delta /\
         get2 (distances g) i j = Ok distance /\
         get2 (directions g) i j = Ok direction /\
         get2 (dirouters g) i j = Ok dirouter /\
         get2 (directions g) j i = Ok (vneg direction) /\
         get2 (distances g) j i = Ok distance /\
         get2 (dirouters g) j i = Ok dirouter).
Proof.
  intros Hu Hcs Hnd.
  apply update_coordinates_Ok in Hu; destruct Hu as (cs' & Hcs' & Hg & _).
  assert (cs' = cs) by congruence; subst cs'.
  exists (build_geometry cs); split; [assumption |]; split; [reflexivity |].
  split; [| split].
  - intros i Hi.
    destruct (nth_error cs i) as [c |] eqn:Ec;
      [| apply nth_error_None in Ec; lia].
    simpl; rewrite !(get2_pair_table _ cs i i c c) by assumption.
    unfold pair_geometry; rewrite Nat.eqb_refl; simpl.
    rewrite vsub_self; fold (norm vzero); rewrite norm_vzero.
    repeat split.
    intros d Hd; apply in_update_divisions in Hd; destruct Hd as [Hne _]; auto.
  - intros i j d Hd Hz; apply in_update_divisions in Hd.
    destruct Hd as (Hne & c1 & c2 & H1 & H2 & ->).
    apply norm_zero in Hz; subst c2; apply Hne.
    rewrite NoDup_nth_error in Hnd; apply Hnd; [| congruence].
    apply nth_error_Some; congruence.
  - intros i j ri rj Hne Hi Hj.
    exists (vsub ri rj), (norm (vsub ri rj)),
      (vdiv (vsub ri rj) (norm (vsub ri rj))),
      (outer (vdiv (vsub ri rj) (norm (vsub ri rj)))
             (vdiv (vsub ri rj) (norm (vsub ri rj)))).
    simpl; rewrite !(get2_pair_table _ cs i j ri rj) by assumption.
    rewrite !(get2_pair_table _ cs j i rj ri) by assumption.
    unfold pair_geometry.
    assert (Eij : (i =? j)%nat = false) by (apply Nat.eqb_neq; assumption).
    assert (Eji : (j =? i)%nat = false) by (apply Nat.eqb_neq; auto).
    rewrite Eij, Eji; simpl; fold (norm (vsub ri rj)) (norm (vsub rj ri)).
    rewrite (vsub_swap ri rj), norm_vneg, vdiv_vneg, outer_vneg.
    repeat split.
Qed.

Lemma geometry_cache_invariants_witness :
  let cs := [V3 0 0 0; V3 1 0 0] in
  let self := {| mask := [[0; 1]; [1; 0]]; coordinates := None; geom := None;
                 pot := Abstract |} in
  let self' := {| mask := [[0; 1]; [1; 0]]; coordinates := Some cs;
                  geom := Some (build_geometry cs); pot := Abstract |} in
  exists g,
    geom self' = Some g /\ numc g = length cs /\
    (forall i, (i < length cs)%nat ->
       get2 (distances g) i i = Ok 0 /\
       get2 (directions g) i i = Ok vzero /\
       get2 (dirouters g) i i = Ok mzero /\
       forall d, ~ In (i, i, d) (update_divisions cs)) /\
    (forall i j d, In (i, j, d) (update_divisions cs) -> d <> 0) /\
    (forall i j ri rj,
       i <> j -> nth_error cs i = Some ri -> nth_error cs j = Some rj ->
       exists delta distance direction dirouter,
         delta = vsub ri rj /\ distance = norm delta /\
         direction = vdiv delta distance /\ dirouter = outer direction direction /\
         get2 (deltas g) i j = Ok delta /\
         get2 (distances g) i j = Ok distance /\
         get2 (directions g) i j = Ok direction /\
         get2 (dirouters g) i j = Ok dirouter /\
         get2 (directions g) j i = Ok (vneg direction) /\
         get2 (distances g) j i = Ok distance /\
         get2 (dirouters g) j i = Ok dirouter).
Proof.
  intros cs self self'.
  apply (geometry_cache_invariants (Some cs) self self' cs);
    [reflexivity | reflexivity |].
  constructor; [simpl; intros [H | []]; inversion H; lra |].
  constructor; [simpl; tauto | constructor].
Defined.

Lemma enumerate_map_from {A B : Type} (f : A -> B) (l : list A) (start : nat) :
  combine (seq start (length (map f l))) (map f l) =
  map (fun p => (fst p, f (snd p))) (combine (seq start (length l)) l).
Proof.
  revert start; induction l as [| x l IH]; intros start; simpl; [reflexivity |].
  rewrite IH; reflexivity.
Qed.

Lemma pair_geometry_translate (t : vec3) (i j : nat) (c1 c2 : vec3) :
  pair_geometry i j (vadd c1 t) (vadd c2 t) = pair_geometry i j c1 c2.
Proof. unfold pair_geometry; rewrite vsub_translate; reflexivity. Qed.

Lemma pair_table_translate {A : Type} (field : pair_geom -> A) (t : vec3)
    (cs : list vec3) :
  pair_table field (translate t cs) = pair_table field cs.
Proof.
  unfold pair_table, translate, enumerate.
  rewrite enumerate_map_from, map_map.
  apply map_ext; intros [i c1]; simpl.
  rewrite map_map; apply map_ext; intros [j c2]; simpl.
  rewrite pair_geometry_translate; reflexivity.
Qed.

Lemma build_geometry_translate (t : vec3) (cs : list vec3) :
  build_geometry (translate t cs) = build_geometry cs.
Proof.
  unfold build_geometry; rewrite !pair_table_translate.
  unfold translate; rewrite length_map; reflexivity.
Qed.

(** The term providers read the class attributes and the geometry cache. *)
Lemma providers_read (s1 s2 : PairFF) (i j : nat) :
  geom s1 = geom s2 -> pot s1 = pot s2 ->
  yield_pair_energies s1 i j = yield_pair_energies s2 i j /\
  yield_pair_gradients s1 i j = yield_pair_gradients s2 i j /\
  yield_pair_hessians s1 i j = yield_pair_hessians s2 i j.
Proof.
  intros Hg Hp.
  unfold yield_pair_energies, yield_pair_gradients, yield_pair_hessians,
    CoulombFF.yield_pair_energies, CoulombFF.yield_pair_gradients,
    CoulombFF.yield_pair_hessians,
    DispersionFF.yield_pair_energies, DispersionFF.yield_pair_gradients,
    DispersionFF.yield_pair_hessians,
    PauliFF.yield_pair_energies, PauliFF.yield_pair_gradients,
    PauliFF.yield_pair_hessians, attr.
  rewrite Hp, Hg; repeat split.
Qed.

(** [energy] reads the mask below the diagonal only, and there only the
    rows of the atoms of the geometry cache. *)
Lemma energy_reads (s1 s2 : PairFF) :
  geom s1 = geom s2 -> pot s1 = pot s2 ->
  (forall g i j, geom s2 = Some g -> (j < i)%nat -> (i < numc g)%nat ->
     get2 (mask s1) i j = get2 (mask s2) i j) ->
  energy s1 = energy s2.
Proof.
  intros Hg Hp Hm; unfold energy, attr; rewrite Hg.
  destruct (geom s2) as [g |] eqn:Eg; simpl; [| reflexivity].
  apply foldM_ext; intros r i Hi; apply foldM_ext; intros r' j Hj.
  apply in_xrange in Hi, Hj; rewrite (Hm g) by auto.
  destruct (providers_read s1 s2 i j) as (-> & _); congruence.
Qed.

(** ** The term providers return *)

Lemma square_covers {A : Type} (n : nat) (a : list (list A)) :
  square n a -> covers n a.
Proof.
  intros [Hl Hr] i j Hi Hj; unfold get2.
  destruct (get1_in_range a i) as [row Hrow]; [lia |].
  rewrite Hrow; simpl; apply get1_in_range.
  apply get1_Ok, nth_error_In in Hrow.
  rewrite Forall_forall in Hr; rewrite (Hr _ Hrow); assumption.
Qed.

Lemma covers_le {A : Type} (m n : nat) (a : list (list A)) :
  (m <= n)%nat -> covers n a -> covers m a.
Proof. intros H Hc i j Hi Hj; apply Hc; lia. Qed.

Lemma parameters_cover_le (m n : nat) (p : potential) :
  (m <= n)%nat -> parameters_cover n p -> parameters_cover m p.
Proof.
  intros H; destruct p as [| charges dipoles | s | s]; simpl; auto.
  - intros [Hc Hd]; split; intros x Hx;
      [specialize (Hc x Hx) | specialize (Hd x Hx)]; lia.
  - apply covers_le; assumption.
  - apply covers_le; assumption.
Qed.

Lemma get2_build_geometry {A : Type} (field : pair_geom -> A) (cs : list vec3)
    (i j : nat) :
  (i < length cs)%nat -> (j < length cs)%nat ->
  exists x, get2 (pair_table field cs) i j = Ok x.
Proof.
  intros Hi Hj.
  destruct (nth_error cs i) as [c1 |] eqn:E1; [| apply nth_error_None in E1; lia].
  destruct (nth_error cs j) as [c2 |] eqn:E2; [| apply nth_error_None in E2; lia].
  rewrite (get2_pair_table field cs i j c1 c2) by assumption; eauto.
Qed.

Lemma read_charges_total (charges : option (list R)) (n i j : nat) :
  (forall cs, charges = Some cs -> (n <= length cs)%nat) ->
  (i < n)%nat -> (j < n)%nat ->
  exists cc, CoulombFF.read_charges charges i j = Ok cc.
Proof.
  intros H Hi Hj; destruct charges as [cs |]; simpl; [| eauto].
  specialize (H cs eq_refl).
  destruct (get1_in_range cs i) as [c1 ->]; [lia |].
  destruct (get1_in_range cs j) as [c2 ->]; [lia |]; simpl; eauto.
Qed.

Section Providers_return.

Variables (self : PairFF) (cs : list vec3) (i j : nat).
Hypothesis Hgeom : geom self = Some (build_geometry cs).
Hypothesis Hcover : parameters_cover (length cs) (pot self).
Hypothesis Hi : (i < length cs)%nat.
Hypothesis Hj : (j < length cs)%nat.

Ltac provider_total :=
  unfold yield_pair_energies, yield_pair_gradients, yield_pair_hessians,
    CoulombFF.yield_pair_energies, CoulombFF.yield_pair_gradients,
    CoulombFF.yield_pair_hessians,
    DispersionFF.yield_pair_energies, DispersionFF.yield_pair_gradients,
    DispersionFF.yield_pair_hessians,
    PauliFF.yield_pair_energies, PauliFF.yield_pair_gradients,
    PauliFF.yield_pair_hessians, attr;
  rewrite Hgeom;
  destruct (get2_build_geometry pg_distance cs i j Hi Hj) as [distance Hdist];
  destruct (get2_build_geometry pg_delta cs i j Hi Hj) as [delta Hdelta];
  destruct (pot self) as [| charges dipoles | strengths | strengths];
  simpl in *;
  [ contradiction
  | destruct Hcover as [Hc Hd];
    destruct (read_charges_total charges _ i j Hc Hi Hj) as [cc Hcc];
    rewrite Hdist; simpl; rewrite Hcc; simpl;
    destruct dipoles as [ps |]; simpl; [| eauto];
    specialize (Hd ps eq_refl); rewrite ?Hdelta; simpl;
    destruct (get1_in_range ps i) as [p1 ->]; [lia |];
    destruct (get1_in_range ps j) as [p2 ->]; [lia |]; simpl; eauto
  | destruct (Hcover i j Hi Hj) as [strength ->]; simpl;
    rewrite Hdist; simpl; eauto
  | destruct (Hcover i j Hi Hj) as [strength ->]; simpl;
    rewrite Hdist; simpl; eauto ].

Lemma yield_pair_energies_total :
  exists terms, yield_pair_energies self i j = Ok terms.
Proof. provider_total. Qed.

Lemma yield_pair_gradients_total :
  exists terms, yield_pair_gradients self i j = Ok terms.
Proof. provider_total. Qed.

Lemma yield_pair_hessians_total :
  exists terms, yield_pair_hessians self i j = Ok terms.
Proof. provider_total. Qed.

Lemma zipped_terms_total : exists terms, zipped_terms self i j = Ok terms.
Proof.
  unfold zipped_terms.
  destruct yield_pair_energies_total as [es ->].
  destruct yield_pair_gradients_total as [gs ->].
  destruct yield_pair_hessians_total as [hs ->]; simpl; eauto.
Qed.

Lemma gradient_term_total (m : R) (t : (R * R) * (R * vec3)) :
  exists g, gradient_term self i j m t = Ok g.
Proof.
  destruct t as [[se ve] [sg vg]]; unfold gradient_term, attr; rewrite Hgeom.
  destruct (get2_build_geometry pg_direction cs i j Hi Hj) as [d Hd].
  simpl in *; rewrite Hd; simpl; eauto.
Qed.

Lemma hessian_term_total (d_1 m : R) (t : (R * R) * (R * vec3) * (R * mat3)) :
  exists h, hessian_term self i j d_1 m t = Ok h.
Proof.
  destruct t as [[[se ve] [sg vg]] [sh vh]]; unfold hessian_term, attr.
  rewrite Hgeom.
  destruct (get2_build_geometry pg_direction cs i j Hi Hj) as [d Hd].
  destruct (get2_build_geometry pg_dirouter cs i j Hi Hj) as [o Ho].
  simpl in *; rewrite Ho; simpl; rewrite Hd; simpl; eauto.
Qed.

End Providers_return.

(** ** Energy *)

(** With a geometry cache of [n] atoms, a mask and parameter arrays that
    cover them, [energy] returns. *)
Lemma energy_total (self : PairFF) (cs : list vec3) :
  geom self = Some (build_geometry cs) ->
  covers (length cs) (mask self) ->
  parameters_cover (length cs) (pot self) ->
  exists e, energy self = Ok e.
Proof.
  intros Hg Hm Hp; unfold energy, attr; rewrite Hg; simpl.
  apply foldM_total; intros r i Hi; apply foldM_total; intros r' j Hj.
  apply in_xrange in Hi, Hj.
  destruct (Hm i j) as [m ->]; [lia | lia |]; simpl.
  destruct (Rlt_dec 0 m); [| eauto].
  destruct (yield_pair_energies_total self cs i j Hg Hp) as [terms ->];
    [lia | lia |]; simpl; eauto.
Qed.

(** C9: two evaluators with the same geometry cache (which
    [update_coordinates] derives from the coordinates alone) and the same
    potential parameters, whose masks agree on every entry [mask[i][j]]
    with [j < i], return the same from [energy], whatever their masks hold
    on the diagonal and above it. *)
Theorem energy_reads_lower_triangle (s1 s2 : PairFF) :
  coordinates s1 = coordinates s2 ->
  geom s1 = geom s2 ->
  pot s1 = pot s2 ->
  (forall i j, (j < i)%nat -> get2 (mask s1) i j = get2 (mask s2) i j) ->
  energy s1 = energy s2.
Proof.
  intros _ Hg Hp Hm; apply energy_reads; auto.
Qed.

Lemma energy_reads_lower_triangle_witness :
  let g := build_geometry [V3 0 0 0; V3 1 0 0] in
  let s1 := {| mask := [[0; 1]; [1; 0]]; coordinates := Some [V3 0 0 0; V3 1 0 0];
               geom := Some g; pot := Coulomb (Some [1; -1]) None |} in
  let s2 := {| mask := [[5; 7]; [1; 2]]; coordinates := Some [V3 0 0 0; V3 1 0 0];
               geom := Some g; pot := Coulomb (Some [1; -1]) None |} in
  energy s1 = energy s2.
Proof.
  intros g s1 s2.
  apply (energy_reads_lower_triangle s1 s2); try reflexivity.
  intros [| [| [| i]]] [| [| j]] H; try lia; reflexivity.
Defined.

(** C4: whatever the evaluator and the vector [t], [energy] returns the
    same after [update_coordinates] with the coordinates [r_i + t] as
    after [update_coordinates] with the coordinates [r_i]; and it does
    return a value when the mask and the parameters cover the atoms. *)
Theorem energy_translation_invariant (self : PairFF) (cs : list vec3) (t : vec3) :
  exists s0 s1,
    update_coordinates (Some cs) self = Ok s0 /\
    update_coordinates (Some (translate t cs)) s0 = Ok s1 /\
    energy s1 = energy s0 /\
    (covers (length cs) (mask self) -> parameters_cover (length cs) (pot self) ->
     exists e, energy s0 = Ok e /\ energy s1 = Ok e).
Proof.
  do 2 eexists; split; [reflexivity |]; split; [reflexivity |].
  match goal with |- ?P /\ _ => assert (He : P) end.
  { apply energy_reads; simpl; auto.
    rewrite build_geometry_translate; reflexivity. }
  split; [exact He |]; intros Hm Hp; rewrite He.
  destruct (energy_total
              {| mask := mask self; coordinates := Some cs;
                 geom := Some (build_geometry cs); pot := pot self |} cs)
    as [e E]; simpl; auto.
  exists e; split; exact E.
Qed.

(** ** Two opposite unit charges at distance one *)

Lemma norm_unit_x_neg : norm (vsub (V3 0 0 0) (V3 1 0 0)) = 1.
Proof.
  unfold norm; replace (dot _ _) with 1 by (vec_unfold; ring); apply sqrt_1.
Qed.

Lemma norm_unit_x_pos : norm (vsub (V3 1 0 0) (V3 0 0 0)) = 1.
Proof.
  unfold norm; replace (dot _ _) with 1 by (vec_unfold; ring); apply sqrt_1.
Qed.

(** C3: a [CoulombFF] with charges [1, -1] and no dipoles, the atoms at
    [(0,0,0)] and [(1,0,0)], and a mask that is on for the two
    off-diagonal entries (the diagonal entries [a] and [b] are the
    caller's): [energy()] returns [-1] and [gradient_component(0)] returns
    [(-1, 0, 0)]. *)
Theorem two_unit_charges (a b : R) :
  exists self,
    new_PairFF [[a; 1]; [1; b]] (Some [V3 0 0 0; V3 1 0 0])
               (Coulomb (Some [1; -1]) None) = Ok self /\
    energy self = Ok (-1) /\
    gradient_component self 0 = Ok (V3 (-1) 0 0).
Proof.
  eexists; split; [apply new_PairFF_Ok |].
  change (zero_diagonal [[a; 1]; [1; b]]) with [[0; 1]; [1; 0]].
  split.
  - unfold energy, attr; simpl.
    destruct (Rlt_dec 0 1) as [_ | H]; [| lra]; simpl.
    fold (norm (vsub (V3 1 0 0) (V3 0 0 0))); rewrite norm_unit_x_pos.
    f_equal; field.
  - unfold gradient_component, attr; simpl.
    destruct (Rlt_dec 0 0) as [H | _]; [lra |]; simpl.
    destruct (Rlt_dec 0 1) as [_ | H]; [| lra]; simpl.
    fold (norm (vsub (V3 0 0 0) (V3 1 0 0))); rewrite norm_unit_x_neg.
    vec_unfold; f_equal; f_equal; field.
Qed.

(** ** Nothing to sum *)

Lemma map_const {A B : Type} (c : B) (l : list A) :
  map (fun _ => c) l = repeat c (length l).
Proof. induction l; simpl; congruence. Qed.

Lemma get2_all_off (a : list (list R)) (i j : nat) (x : R) :
  all_off a -> get2 a i j = Ok x -> x = 0.
Proof.
  unfold get2; intros Ha H; apply bind_Ok_inv in H; destruct H as (row & Hr & Hx).
  apply get1_Ok, nth_error_In in Hr, Hx.
  unfold all_off in Ha; rewrite Forall_forall in Ha.
  specialize (Ha row Hr); rewrite Forall_forall in Ha; auto.
Qed.

(** When every entry of the mask that a query reads is zero, no pair
    contributes. *)
Lemma silent_mask (self : PairFF) (g : geometry) :
  geom self = Some g ->
  (forall i j, (i < numc g)%nat -> (j < numc g)%nat ->
     get2 (mask self) i j = Ok 0) ->
  energy self = Ok 0 /\
  (forall i, (i < numc g)%nat -> gradient_component self i = Ok vzero) /\
  (forall i j, (i < numc g)%nat -> (j < numc g)%nat ->
     hessian_component self i j = Ok mzero).
Proof.
  intros Hg Hm.
  assert (Hoff : forall A (x y : result A), (if Rlt_dec 0 0 then x else y) = y).
  { intros; destruct (Rlt_dec 0 0); [lra | reflexivity]. }
  unfold energy, gradient_component, hessian_component, attr; rewrite Hg; simpl.
  split; [| split].
  - apply foldM_id; intros i Hi; apply foldM_id; intros j Hj.
    apply in_xrange in Hi, Hj; rewrite Hm by lia; simpl; apply Hoff.
  - intros i Hi; apply foldM_id; intros j Hj.
    apply in_xrange in Hj; rewrite Hm by lia; simpl; apply Hoff.
  - intros i j Hi Hj; destruct (i =? j)%nat.
    + apply foldM_id; intros k Hk.
      apply in_xrange in Hk; rewrite Hm by lia; simpl; apply Hoff.
    + rewrite Hm by lia; simpl; apply Hoff.
Qed.

(** C8: an evaluator of [n] atoms with [n <= 1], or with a mask that is
    entirely zero, returns [0] from [energy], [n] zero vectors from
    [gradient] and an array of shape [(n, 3, n, 3)] of zeros from
    [hessian]. *)
Theorem nothing_to_sum (n : nat) (mask0 : list (list R)) (cs : list vec3)
    (pot0 : potential) :
  square n mask0 -> length cs = n ->
  (n <= 1)%nat \/ all_off mask0 ->
  exists self,
    new_PairFF mask0 (Some cs) pot0 = Ok self /\
    energy self = Ok 0 /\
    gradient self = Ok (repeat vzero n) /\
    hessian self = Ok (repeat (repeat (repeat [0; 0; 0] n) 3) n).
Proof.
  intros Hsq Hn Hcase; eexists; split; [apply new_PairFF_Ok |].
  set (self := {| mask := zero_diagonal mask0; coordinates := Some cs;
                  geom := option_map build_geometry (Some cs); pot := pot0 |}).
  assert (Hm : forall i j, (i < n)%nat -> (j < n)%nat ->
                 get2 (mask self) i j = Ok 0).
  { intros i j Hi Hj; simpl; rewrite (get2_zero_diagonal n) by assumption.
    destruct (Nat.eqb_spec i j) as [E | E]; [reflexivity |].
    destruct Hcase as [H1 | Hoff]; [lia |].
    destruct (square_covers n mask0 Hsq i j Hi Hj) as [x Hx].
    rewrite Hx; f_equal; eapply get2_all_off; eauto. }
  destruct (silent_mask self (build_geometry cs) eq_refl) as (He & Hgc & Hhc).
  { simpl; rewrite Hn; exact Hm. }
  simpl in Hgc, Hhc; rewrite Hn in Hgc, Hhc.
  split; [exact He |]; split.
  - unfold gradient, attr; simpl; rewrite Hn.
    rewrite (mapM_Ok _ (fun _ => vzero)).
    + rewrite map_const; unfold xrange; rewrite length_seq; reflexivity.
    + intros i Hi; apply in_xrange in Hi; auto.
  - unfold hessian, attr; simpl; rewrite Hn.
    rewrite (mapM_Ok _ (fun _ => repeat mzero n)).
    + simpl; rewrite map_map; cbv beta; rewrite map_const, !map_repeat.
      unfold xrange; rewrite length_seq; reflexivity.
    + intros i Hi; apply in_xrange in Hi.
      rewrite (mapM_Ok _ (fun _ => mzero)).
      * rewrite map_const; unfold xrange; rewrite length_seq; reflexivity.
      * intros j Hj; apply in_xrange in Hj; auto.
Qed.

Lemma nothing_to_sum_witness :
  exists self,
    new_PairFF [[1]] (Some [V3 1 2 3]) (Dispersion [[1]]) = Ok self /\
    energy self = Ok 0 /\
    gradient self = Ok (repeat vzero 1) /\
    hessian self = Ok (repeat (repeat (repeat [0; 0; 0] 1) 3) 1).
Proof.
  apply (nothing_to_sum 1 [[1]] [V3 1 2 3] (Dispersion [[1]])).
  - split; [reflexivity | repeat constructor].
  - reflexivity.
  - left; lia.
Defined.

(** ** Coordinates of another length than the mask *)

(** Which exception a computation raises, read off its binds. *)
Ltac raise_inv H :=
  lazymatch type of H with
  | bind _ _ = Raise _ =>
      apply bind_Raise_inv in H; destruct H as [H | (? & _ & H)];
      [raise_inv H | cbv beta in H; raise_inv H]
  | get1 _ _ = Raise _ => apply get1_Raise in H; exact H
  | get2 _ _ _ = Raise _ => apply get2_Raise in H; exact H
  | Ok _ = Raise _ => discriminate H
  | match ?x with _ => _ end = Raise _ => destruct x; raise_inv H
  | _ => idtac
  end.

(** Once the geometry cache exists, a provider of a concrete class can
    only fail on an index. *)
Lemma yield_pair_energies_Raise (self : PairFF) (i j : nat) (e : exn) :
  geom self <> None -> pot self <> Abstract ->
  yield_pair_energies self i j = Raise e -> e = IndexError.
Proof.
  intros Hg Hp H.
  unfold yield_pair_energies, CoulombFF.yield_pair_energies,
    DispersionFF.yield_pair_energies, PauliFF.yield_pair_energies,
    CoulombFF.read_charges, attr in H.
  destruct (geom self) as [g |]; [| congruence].
  destruct (pot self) as [| charges dipoles | s | s]; [congruence | | |];
    raise_inv H.
Qed.

Lemma get2_leading {A : Type} (m : nat) (a : list (list A)) (i j : nat) :
  (i < m)%nat -> (j < m)%nat -> get2 (leading m a) i j = get2 a i j.
Proof.
  intros Hi Hj; unfold get2, get1, leading.
  rewrite nth_error_firstn, nth_error_map.
  destruct (Nat.ltb_spec i m); [| lia].
  destruct (nth_error a i) as [row |]; simpl; [| reflexivity].
  rewrite nth_error_firstn; destruct (Nat.ltb_spec j m); [reflexivity | lia].
Qed.

(** [energy] cannot return when an entry of the mask that it reads is
    missing; with a concrete class it raises [IndexError]. *)
Lemma energy_mask_too_small (self : PairFF) (g : geometry) (i j : nat) :
  geom self = Some g -> pot self <> Abstract ->
  (j < i)%nat -> (i < numc g)%nat ->
  get2 (mask self) i j = Raise IndexError ->
  energy self = Raise IndexError.
Proof.
  intros Hg Hp Hji Hi Hm.
  destruct (energy self) as [x | e] eqn:E; unfold energy, attr in E;
    rewrite Hg in E; simpl in E.
  - exfalso.
    destruct (foldM_Ok_pass _ _ _ _ i E) as (r1 & r2 & E1);
      [apply in_xrange; assumption |].
    destruct (foldM_Ok_pass _ _ _ _ j E1) as (r3 & r4 & E2);
      [apply in_xrange; assumption |].
    rewrite Hm in E2; discriminate.
  - f_equal.
    apply foldM_Raise in E; destruct E as (r1 & i' & _ & E).
    apply foldM_Raise in E; destruct E as (r2 & j' & _ & E).
    apply bind_Raise_inv in E; destruct E as [E | (m & _ & E)];
      [eapply get2_Raise; eauto |].
    destruct (Rlt_dec 0 m); [| discriminate].
    apply bind_Raise_inv in E; destruct E as [E | (t & _ & E)]; [| discriminate].
    eapply yield_pair_energies_Raise; eauto; congruence.
Qed.

(** C1, as the code has it: neither [update_coordinates] nor [energy]
    compares the number of coordinates with the size of the mask, and no
    [DimensionError] exists. With fewer coordinates than the mask has rows
    (and parameters for each of them) the first [energy()] returns a value,
    the one of the evaluator whose mask is the leading block of that size;
    with more coordinates than rows, and at least two, [energy()] of a
    concrete class raises [IndexError]. *)
Theorem coordinates_length_unchecked (n : nat) (mask0 : list (list R))
    (coordinates0 : option (list vec3)) (pot0 : potential) (cs : list vec3) :
  square n mask0 -> pot0 <> Abstract -> length cs <> n ->
  exists self self',
    new_PairFF mask0 coordinates0 pot0 = Ok self /\
    update_coordinates (Some cs) self = Ok self' /\
    ((length cs < n)%nat -> parameters_cover (length cs) pot0 ->
     exists e,
       energy self' = Ok e /\
       energy {| mask := leading (length cs) (mask self');
                 coordinates := coordinates self';
                 geom := geom self'; pot := pot self' |} = Ok e) /\
    ((n < length cs)%nat -> (2 <= length cs)%nat ->
     energy self' = Raise IndexError).
Proof.
  intros Hsq Hp Hne; do 2 eexists.
  split; [apply new_PairFF_Ok |]; split; [reflexivity |]; simpl.
  pose proof (square_zero_diagonal n mask0 Hsq) as Hsq'.
  split.
  - intros Hlt Hc.
    match goal with |- exists e, energy ?s = _ /\ _ =>
      destruct (energy_total s cs) as [e He]; simpl; auto
    end.
    { apply (covers_le _ n); [lia | apply square_covers; assumption]. }
    exists e; split; [exact He |]; rewrite <- He.
    apply energy_reads; simpl; auto.
    intros g i j Hg Hji Hi; inversion Hg; subst g; simpl in Hi.
    apply get2_leading; lia.
  - intros Hgt H2.
    apply (energy_mask_too_small _ (build_geometry cs) (length cs - 1) 0);
      simpl; auto; try lia.
    apply get2_out_of_range; destruct Hsq' as [Hl _]; lia.
Qed.

Lemma coordinates_length_unchecked_witness :
  exists self self',
    new_PairFF [[0; 1]; [1; 0]] None (Coulomb (Some [1; -1]) None) = Ok self /\
    update_coordinates (Some [V3 0 0 0]) self = Ok self' /\
    ((length [V3 0 0 0] < 2)%nat ->
     parameters_cover (length [V3 0 0 0]) (Coulomb (Some [1; -1]) None) ->
     exists e,
       energy self' = Ok e /\
       energy {| mask := leading (length [V3 0 0 0]) (mask self');
                 coordinates := coordinates self';
                 geom := geom self'; pot := pot self' |} = Ok e) /\
    ((2 < length [V3 0 0 0])%nat -> (2 <= length [V3 0 0 0])%nat ->
     energy self' = Raise IndexError).
Proof.
  apply (coordinates_length_unchecked 2 [[0; 1]; [1; 0]] None
           (Coulomb (Some [1; -1]) None) [V3 0 0 0]).
  - split; [reflexivity | repeat constructor].
  - discriminate.
  - simpl; lia.
Defined.

(** C1 fails as stated: with a mask of three atoms, three charges and two
    coordinates, [update_coordinates] followed by [energy] raises nothing
    and returns the energy of the two atoms. *)
Lemma short_coordinates_not_detected :
  exists self self',
    square 3 [[0; 1; 1]; [1; 0; 1]; [1; 1; 0]] /\
    new_PairFF [[0; 1; 1]; [1; 0; 1]; [1; 1; 0]] None
               (Coulomb (Some [1; -1; 1]) None) = Ok self /\
    length [V3 0 0 0; V3 1 0 0] <> 3%nat /\
    update_coordinates (Some [V3 0 0 0; V3 1 0 0]) self = Ok self' /\
    energy self' = Ok (-1) /\
    forall e, energy self' <> Raise e.
Proof.
  do 2 eexists.
  split; [split; [reflexivity | repeat constructor] |].
  split; [apply new_PairFF_Ok |].
  split; [simpl; lia |]; split; [reflexivity |].
  change (zero_diagonal [[0; 1; 1]; [1; 0; 1]; [1; 1; 0]])
    with [[0; 1; 1]; [1; 0; 1]; [1; 1; 0]].
  unfold energy, attr; simpl.
  destruct (Rlt_dec 0 1) as [_ | H]; [| lra]; simpl.
  fold (norm (vsub (V3 1 0 0) (V3 0 0 0))); rewrite norm_unit_x_pos.
  split; [f_equal; field | discriminate].
Qed.

(** ** The rows of the Hessian sum to zero *)

Lemma mapM_total {A B : Type} (f : A -> result B) (l : list A) :
  (forall a, In a l -> exists b, f a = Ok b) -> exists bs, mapM f l = Ok bs.
Proof.
  induction l as [| a l IH]; intros H; simpl; [eauto |].
  destruct (H a (or_introl eq_refl)) as [b ->]; simpl.
  destruct IH as [bs ->]; [intros; apply H; right; assumption |]; simpl; eauto.
Qed.

(** A loop that adds one block per element adds their sum. *)
Lemma foldM_madd {A : Type} (f : A -> result mat3) (l : list A) (r : mat3) :
  foldM (fun result a => h <- f a ;; Ok (madd result h)) l r =
  (hs <- mapM f l ;; Ok (madd r (msum hs))).
Proof.
  revert r; induction l as [| a l IH]; intros r; simpl.
  - rewrite madd_mzero_r; reflexivity.
  - destruct (f a) as [h | e]; simpl; [| reflexivity].
    rewrite IH; destruct (mapM f l); simpl; [| reflexivity].
    rewrite madd_assoc; reflexivity.
Qed.

(** A loop that subtracts one block per element subtracts their sum. *)
Lemma foldM_msub {A : Type} (f : A -> result mat3) (l : list A) (r : mat3) :
  foldM (fun result a => h <- f a ;; Ok (msub result h)) l r =
  (hs <- mapM f l ;; Ok (msub r (msum hs))).
Proof.
  revert r; induction l as [| a l IH]; intros r; simpl.
  - f_equal; vec_eq.
  - destruct (f a) as [h | e]; simpl; [| reflexivity].
    rewrite IH; destruct (mapM f l); simpl; [| reflexivity].
    rewrite msub_madd; reflexivity.
Qed.

Lemma hessian_component_off_diagonal (self : PairFF) (i j : nat) :
  i <> j ->
  hessian_component self i j = (t <- pair_block self i j ;; Ok (msub mzero t)).
Proof.
  intros Hne; unfold hessian_component, pair_block.
  apply Nat.eqb_neq in Hne; rewrite Hne.
  destruct (get2 (mask self) i j) as [m |]; simpl; [| reflexivity].
  destruct (Rlt_dec 0 m); simpl; [| f_equal; vec_eq].
  destruct (attr self distances) as [ds |]; simpl; [| reflexivity].
  destruct (get2 ds i j) as [distance |]; simpl; [| reflexivity].
  destruct (zipped_terms self i j) as [terms |]; simpl; [| reflexivity].
  rewrite foldM_msub; destruct (mapM _ terms); reflexivity.
Qed.

Lemma hessian_component_diagonal (self : PairFF) (i : nat) :
  hessian_component self i i =
  (n <- attr self numc ;;
   ts <- mapM (pair_block self i) (xrange n) ;;
   Ok (madd mzero (msum ts))).
Proof.
  unfold hessian_component; rewrite Nat.eqb_refl.
  destruct (attr self numc) as [n |]; simpl; [| reflexivity].
  rewrite <- foldM_madd; apply foldM_ext; intros r k _; unfold pair_block.
  destruct (get2 (mask self) i k) as [m |]; simpl; [| reflexivity].
  destruct (Rlt_dec 0 m); simpl; [| rewrite madd_mzero_r; reflexivity].
  destruct (attr self distances) as [ds |]; simpl; [| reflexivity].
  destruct (get2 ds i k) as [distance |]; simpl; [| reflexivity].
  destruct (zipped_terms self i k) as [terms |]; simpl; [| reflexivity].
  rewrite foldM_madd; destruct (mapM _ terms); reflexivity.
Qed.

Lemma pair_block_total (self : PairFF) (cs : list vec3) (i k : nat) :
  geom self = Some (build_geometry cs) ->
  covers (length cs) (mask self) ->
  parameters_cover (length cs) (pot self) ->
  (i < length cs)%nat -> (k < length cs)%nat ->
  pair_block self i k = Ok (returned (pair_block self i k)).
Proof.
  intros Hg Hm Hp Hi Hk.
  assert (H : exists t, pair_block self i k = Ok t); [| destruct H as [t ->]; auto].
  unfold pair_block.
  destruct (Hm i k Hi Hk) as [m ->]; simpl.
  destruct (Rlt_dec 0 m); [| eauto].
  unfold attr at 1; rewrite Hg; simpl.
  destruct (get2_build_geometry pg_distance cs i k Hi Hk) as [distance ->]; simpl.
  destruct (zipped_terms_total self cs i k Hg Hp Hi Hk) as [terms ->]; simpl.
  destruct (mapM_total (hessian_term self i k (1 / distance) m) terms) as [hs ->];
    [| simpl; eauto].
  intros t _; apply (hessian_term_total self cs); assumption.
Qed.

Lemma msum_off_diagonal (F : nat -> mat3) (S : mat3) (i : nat) (l : list nat) :
  ~ In i l ->
  msum (map (fun k => if (i =? k)%nat then S else msub mzero (F k)) l) =
  msub mzero (msum (map F l)).
Proof.
  induction l as [| k l IH]; intros Hi; simpl; [vec_eq |].
  rewrite IH by (intros H; apply Hi; right; assumption).
  destruct (Nat.eqb_spec i k) as [-> | _]; [exfalso; apply Hi; left; reflexivity |].
  generalize (msum (map F l)) (F k); vec_eq.
Qed.

(** One block holds the sum [S] of the row, the others the negated
    entries; the entry of the row at [i] itself is zero. *)
Lemma msum_row (F : nat -> mat3) (S : mat3) (i : nat) (l : list nat) :
  NoDup l -> In i l -> F i = mzero ->
  msum (map (fun k => if (i =? k)%nat then S else msub mzero (F k)) l) =
  madd S (msub mzero (msum (map F l))).
Proof.
  intros Hnd Hin Hz; induction Hnd as [| k l Hk Hnd IH]; [destruct Hin |].
  simpl; destruct (Nat.eqb_spec i k) as [<- | Hne].
  - rewrite msum_off_diagonal by assumption; rewrite Hz.
    generalize (msum (map F l)); vec_eq.
  - destruct Hin as [-> | Hin]; [contradiction |].
    rewrite IH by assumption.
    generalize (msum (map F l)) (F k); vec_eq.
Qed.

(** C2: for an evaluator of any of the three potentials with [n] atoms
    (mask of shape [(n, n)], parameters for each atom) and every atom [i],
    each [hessian_component(i, j)] returns and their sum over [j] is the
    zero block. *)
Theorem hessian_rows_sum_to_zero (n : nat) (mask0 : list (list R))
    (cs : list vec3) (pot0 : potential) :
  square n mask0 -> length cs = n -> parameters_cover n pot0 ->
  exists self,
    new_PairFF mask0 (Some cs) pot0 = Ok self /\
    forall i, (i < n)%nat -> hessian_row_sum self i = Ok mzero.
Proof.
  intros Hsq Hn Hp; eexists; split; [apply new_PairFF_Ok |].
  set (self := {| mask := zero_diagonal mask0; coordinates := Some cs;
                  geom := option_map build_geometry (Some cs); pot := pot0 |}).
  intros i Hi; subst n.
  assert (Hg : geom self = Some (build_geometry cs)) by reflexivity.
  assert (Hm : covers (length cs) (mask self)).
  { apply square_covers, square_zero_diagonal; assumption. }
  set (F := fun k => returned (pair_block self i k)).
  assert (HF : forall k, In k (xrange (length cs)) -> pair_block self i k = Ok (F k)).
  { intros k Hk; apply in_xrange in Hk; apply (pair_block_total self cs); auto. }
  assert (Hz : F i = mzero).
  { unfold F, pair_block; simpl.
    rewrite (get2_zero_diagonal (length cs)), Nat.eqb_refl by assumption; simpl.
    destruct (Rlt_dec 0 0); [lra | reflexivity]. }
  unfold hessian_row_sum, attr; rewrite Hg; simpl.
  rewrite (mapM_Ok _ (fun k => if (i =? k)%nat
                               then madd mzero (msum (map F (xrange (length cs))))
                               else msub mzero (F k))).
  - simpl; f_equal; rewrite msum_row.
    + generalize (msum (map F (xrange (length cs)))); vec_eq.
    + apply seq_NoDup.
    + apply in_xrange; assumption.
    + exact Hz.
  - intros k Hk; destruct (Nat.eqb_spec i k) as [<- | Hne].
    + rewrite hessian_component_diagonal; unfold attr; rewrite Hg; simpl.
      rewrite (mapM_Ok _ F) by exact HF; reflexivity.
    + rewrite hessian_component_off_diagonal by assumption.
      rewrite HF by assumption; reflexivity.
Qed.

Lemma hessian_rows_sum_to_zero_witness :
  exists self,
    new_PairFF [[1; 1]; [1; 1]] (Some [V3 0 0 0; V3 1 0 0])
               (Coulomb (Some [1; -1]) (Some [V3 0 1 0; V3 1 0 0])) = Ok self /\
    forall i, (i < 2)%nat -> hessian_row_sum self i = Ok mzero.
Proof.
  apply (hessian_rows_sum_to_zero 2 [[1; 1]; [1; 1]] [V3 0 0 0; V3 1 0 0]
           (Coulomb (Some [1; -1]) (Some [V3 0 1 0; V3 1 0 0]))).
  - split; [reflexivity | repeat constructor].
  - reflexivity.
  - split; intros x H; inversion H; simpl; lia.
Defined.

(** ** The three sequences of [CoulombFF] are aligned *)

Ltac radial := unfold Rdiv; rewrite <- ?pow_inv, ?Rinv_mult, ?Rinv_1; ring.

(** Two sequences of terms are equal when their terms are, factor by
    factor. *)
Ltac same_terms :=
  repeat match goal with
         | |- Ok _ = Ok _ => f_equal
         | |- _ :: _ = _ :: _ => f_equal
         | |- (_, _) = (_, _) => f_equal
         | |- @eq R _ _ => radial
         end.

(** C6: whatever the pair and whichever of [charges] and [dipoles] are
    set, the sequences of [yield_pair_energies], [yield_pair_gradients]
    and [yield_pair_hessians] of a [CoulombFF] are the energy, gradient and
    Hessian entries of one and the same list of terms, the terms whose
    prerequisite attributes are set, in the order of the specification;
    so the three have the same length and their k-th elements belong to
    the same term. *)
Theorem coulomb_sequences_aligned (self : PairFF) (charges : option (list R))
    (dipoles : option (list vec3)) (g : geometry) (i j : nat) (d : pair_data) :
  pot self = Coulomb charges dipoles ->
  geom self = Some g ->
  get2 (distances g) i j = Ok (r_ij d) ->
  get2 (deltas g) i j = Ok (delta_ij d) ->
  entries_at charges i j (q_i d) (q_j d) ->
  entries_at dipoles i j (p_i d) (p_j d) ->
  let terms := present_terms (is_set charges) (is_set dipoles) in
  exists es gs hs,
    yield_pair_energies self i j = Ok es /\
    yield_pair_gradients self i j = Ok gs /\
    yield_pair_hessians self i j = Ok hs /\
    es = map (energy_term_of d) terms /\
    gs = map (gradient_term_of d) terms /\
    hs = map (hessian_term_of d) terms /\
    length es = length terms /\ length gs = length terms /\
    length hs = length terms.
Proof.
  intros Hp Hg Hr Hdelta Hq Hd terms.
  exists (map (energy_term_of d) terms), (map (gradient_term_of d) terms),
    (map (hessian_term_of d) terms).
  rewrite !length_map.
  unfold yield_pair_energies, yield_pair_gradients, yield_pair_hessians,
    CoulombFF.yield_pair_energies, CoulombFF.yield_pair_gradients,
    CoulombFF.yield_pair_hessians, CoulombFF.read_charges, attr.
  rewrite Hp, Hg; simpl; rewrite Hr, Hdelta; simpl.
  destruct d as [qi qj pi pj r delta]; simpl in *.
  destruct charges as [cs |], dipoles as [ps |]; simpl in terms; subst terms;
    try (destruct (Hq cs eq_refl) as [-> ->]);
    try (destruct (Hd ps eq_refl) as [-> ->]); simpl;
    repeat split; same_terms.
Qed.

Lemma coulomb_sequences_aligned_witness :
  let cs := [V3 0 0 0; V3 1 0 0] in
  let self := {| mask := [[0; 1]; [1; 0]]; coordinates := Some cs;
                 geom := Some (build_geometry cs);
                 pot := Coulomb (Some [1; -1]) (Some [V3 0 1 0; V3 1 0 0]) |} in
  let d := {| q_i := 1; q_j := -1; p_i := V3 0 1 0; p_j := V3 1 0 0;
              r_ij := norm (vsub (V3 0 0 0) (V3 1 0 0));
              delta_ij := vsub (V3 0 0 0) (V3 1 0 0) |} in
  let terms := present_terms true true in
  exists es gs hs,
    yield_pair_energies self 0 1 = Ok es /\
    yield_pair_gradients self 0 1 = Ok gs /\
    yield_pair_hessians self 0 1 = Ok hs /\
    es = map (energy_term_of d) terms /\
    gs = map (gradient_term_of d) terms /\
    hs = map (hessian_term_of d) terms /\
    length es = length terms /\ length gs = length terms /\
    length hs = length terms.
Proof.
  intros cs self d.
  apply (coulomb_sequences_aligned self (Some [1; -1])
           (Some [V3 0 1 0; V3 1 0 0]) (build_geometry cs) 0 1 d);
    try reflexivity.
  - intros a H; inversion H; split; reflexivity.
  - intros a H; inversion H; split; reflexivity.
Defined.

Lemma energy_translation_invariant_witness :
  let self := {| mask := [[0; 1]; [1; 0]]; coordinates := None; geom := None;
                 pot := Coulomb (Some [1; -1]) None |} in
  let cs := [V3 0 0 0; V3 1 0 0] in
  exists s0 s1 e,
    update_coordinates (Some cs) self = Ok s0 /\
    update_coordinates (Some (translate (V3 1 2 3) cs)) s0 = Ok s1 /\
    energy s0 = Ok e /\ energy s1 = Ok e.
Proof.
  intros self cs.
  destruct (energy_translation_invariant self cs (V3 1 2 3))
    as (s0 & s1 & H0 & H1 & _ & Hok).
  destruct Hok as (e & He0 & He1).
  - apply square_covers; split; [reflexivity | repeat constructor].
  - split; intros x H; inversion H; simpl; lia.
  - exists s0, s1, e; auto.
Defined.


(** ** The radial factors of one term are derivatives of one another *)

Lemma radial_derivative (f : R -> R) (c : R) (n : nat) (r l : R) :
  r <> 0 ->
  (forall x, f x = c / x ^ n) ->
  l = - INR n * c / r ^ S n ->
  derivable_pt_lim f r l.
Proof.
  intros Hr Hf ->.
  apply (derivable_pt_lim_ext (fct_cte c / (fun y => y ^ n))%F);
    [intros x; rewrite Hf; reflexivity |].
  replace (- INR n * c / r ^ S n)
    with ((0 * r ^ n - INR n * r ^ pred n * c) / Rsqr (r ^ n)).
  - apply derivable_pt_lim_div;
      [apply derivable_pt_lim_const | apply derivable_pt_lim_pow
      | apply pow_nonzero; assumption].
  - destruct n as [| m]; unfold Rsqr; simpl.
    + field; assumption.
    + field; split; [apply pow_nonzero |]; assumption.
Qed.

Ltac radial_fun :=
  intros; simpl; unfold Rdiv; rewrite ?Rinv_mult, ?Rinv_1; ring.

Ltac radial_value := simpl; field; assumption.

(** For each term of the electrostatic potential, the scalar of its
    gradient entry is the derivative in the distance of the scalar of its
    energy entry, and the scalar of its Hessian entry the derivative of
    that of its gradient entry. *)
Lemma coulomb_scalars_are_derivatives (d : pair_data) (k : coulomb_term) :
  r_ij d <> 0 ->
  derivable_pt_lim (fun x => fst (energy_term_of (at_distance d x) k))
                   (r_ij d) (fst (gradient_term_of d k)) /\
  derivable_pt_lim (fun x => fst (gradient_term_of (at_distance d x) k))
                   (r_ij d) (fst (hessian_term_of d k)).
Proof.
  intros Hr; destruct d as [qi qj pi pj r delta]; simpl in Hr.
  destruct k; simpl; split.
  - apply (radial_derivative _ (qi * qj) 1);
      [assumption | radial_fun | radial_value].
  - apply (radial_derivative _ (- (qi * qj)) 2);
      [assumption | radial_fun | radial_value].
  - apply (radial_derivative _ (dot pi pj) 3);
      [assumption | radial_fun | radial_value].
  - apply (radial_derivative _ (-3 * dot pi pj) 4);
      [assumption | radial_fun | radial_value].
  - apply (radial_derivative _ (-3) 5);
      [assumption | radial_fun | radial_value].
  - apply (radial_derivative _ 15 6);
      [assumption | radial_fun | radial_value].
  - apply (radial_derivative _ qi 3);
      [assumption | radial_fun | radial_value].
  - apply (radial_derivative _ (-3 * qi) 4);
      [assumption | radial_fun | radial_value].
  - apply (radial_derivative _ qj 3);
      [assumption | radial_fun | radial_value].
  - apply (radial_derivative _ (-3 * qj) 4);
      [assumption | radial_fun | radial_value].
Qed.

(** ** A block of the Hessian of the two unit charges *)

(** The off-diagonal block of the two opposite unit charges at distance
    one, and with it the diagonal block of the first atom, its negative. *)
Lemma two_unit_charges_hessian :
  let self := {| mask := [[0; 1]; [1; 0]];
                 coordinates := Some [V3 0 0 0; V3 1 0 0];
                 geom := Some (build_geometry [V3 0 0 0; V3 1 0 0]);
                 pot := Coulomb (Some [1; -1]) None |} in
  hessian_component self 0 1 = Ok (M3 (V3 2 0 0) (V3 0 (-1) 0) (V3 0 0 (-1))) /\
  hessian_component self 0 0 = Ok (M3 (V3 (-2) 0 0) (V3 0 1 0) (V3 0 0 1)).
Proof.
  intros self; unfold hessian_component, zipped_terms, attr; simpl.
  destruct (Rlt_dec 0 0) as [H | _]; [lra |]; simpl.
  destruct (Rlt_dec 0 1) as [_ | H]; [| lra]; simpl.
  fold (norm (vsub (V3 0 0 0) (V3 1 0 0))); rewrite norm_unit_x_neg.
  clear self; split; apply f_equal;
    cbv [mmuls mmul msub madd identity3 mzero outer vdiv vmuls smul vsub vadd
         vzero row0 row1 row2 vx vy vz];
    rewrite !Rdiv_1_r; apply f_equal3; apply f_equal3;
    unfold Rdiv; rewrite ?Rinv_mult, ?Rinv_1; ring.
Qed.

(** * Further properties of the evaluator *)

(** ** What the queries read *)

(** One pass of a loop over the mask: the pass looks at the entry and
    does nothing unless it is positive. *)
Lemma mask_pass {S : Type} (m1 m2 : list (list R)) (i j : nat)
    (K1 K2 : R -> result S) (r : S) :
  same_weights m1 m2 -> (forall m, K1 m = K2 m) ->
  (m <- get2 m1 i j ;; if Rlt_dec 0 m then K1 m else Ok r) =
  (m <- get2 m2 i j ;; if Rlt_dec 0 m then K2 m else Ok r).
Proof.
  intros Hw HK; destruct (Hw i j) as [-> | (x & y & -> & -> & Hx & Hy)].
  - destruct (get2 m2 i j) as [m |]; simpl; [| reflexivity].
    rewrite HK; reflexivity.
  - simpl; destruct (Rlt_dec 0 x), (Rlt_dec 0 y); try contradiction; reflexivity.
Qed.

Lemma same_weights_refl (m : list (list R)) : same_weights m m.
Proof. intros i j; left; reflexivity. Qed.

Section Queries_read.

Variables s1 s2 : PairFF.
Hypothesis Hgeom : geom s1 = geom s2.
Hypothesis Hpot : pot s1 = pot s2.
Hypothesis Hmask : same_weights (mask s1) (mask s2).

Lemma attr_reads {A : Type} (field : geometry -> A) : attr s1 field = attr s2 field.
Proof. unfold attr; rewrite Hgeom; reflexivity. Qed.

Lemma gradient_term_reads (i j : nat) (m : R) (t : (R * R) * (R * vec3)) :
  gradient_term s1 i j m t = gradient_term s2 i j m t.
Proof.
  destruct t as [[se ve] [sg vg]]; unfold gradient_term.
  rewrite attr_reads; reflexivity.
Qed.

Lemma hessian_term_reads (i j : nat) (d_1 m : R)
    (t : (R * R) * (R * vec3) * (R * mat3)) :
  hessian_term s1 i j d_1 m t = hessian_term s2 i j d_1 m t.
Proof.
  destruct t as [[[se ve] [sg vg]] [sh vh]]; unfold hessian_term.
  rewrite !attr_reads; reflexivity.
Qed.

Lemma zipped_terms_reads (i j : nat) : zipped_terms s1 i j = zipped_terms s2 i j.
Proof.
  unfold zipped_terms.
  destruct (providers_read s1 s2 i j Hgeom Hpot) as (-> & -> & ->); reflexivity.
Qed.

Lemma energy_reads_weights : energy s1 = energy s2.
Proof.
  unfold energy; rewrite attr_reads.
  destruct (attr s2 numc) as [n |]; simpl; [| reflexivity].
  apply foldM_ext; intros r i _; apply foldM_ext; intros r' j _.
  apply mask_pass; [assumption |]; intros m.
  destruct (providers_read s1 s2 i j Hgeom Hpot) as (-> & _); reflexivity.
Qed.

Lemma gradient_component_reads (i : nat) :
  gradient_component s1 i = gradient_component s2 i.
Proof.
  unfold gradient_component; rewrite attr_reads.
  destruct (attr s2 numc) as [n |]; simpl; [| reflexivity].
  apply foldM_ext; intros r j _.
  apply mask_pass; [assumption |]; intros m.
  destruct (providers_read s1 s2 i j Hgeom Hpot) as (-> & -> & _).
  destruct (yield_pair_energies s2 i j) as [es |]; simpl; [| reflexivity].
  destruct (yield_pair_gradients s2 i j) as [gs |]; simpl; [| reflexivity].
  apply foldM_ext; intros r' t _; rewrite gradient_term_reads; reflexivity.
Qed.

Lemma hessian_component_reads (i j : nat) :
  hessian_component s1 i j = hessian_component s2 i j.
Proof.
  unfold hessian_component; rewrite (attr_reads numc).
  assert (Hterms : forall k m (add : mat3 -> mat3 -> mat3) r,
    (ds <- attr s1 distances ;; distance <- get2 ds i k ;;
     terms <- zipped_terms s1 i k ;;
     foldM (fun result t =>
              h <- hessian_term s1 i k (1 / distance) m t ;; Ok (add result h))
           terms r) =
    (ds <- attr s2 distances ;; distance <- get2 ds i k ;;
     terms <- zipped_terms s2 i k ;;
     foldM (fun result t =>
              h <- hessian_term s2 i k (1 / distance) m t ;; Ok (add result h))
           terms r)).
  { intros k m add r; rewrite attr_reads, zipped_terms_reads.
    destruct (attr s2 distances) as [ds |]; simpl; [| reflexivity].
    destruct (get2 ds i k) as [distance |]; simpl; [| reflexivity].
    destruct (zipped_terms s2 i k) as [terms |]; simpl; [| reflexivity].
    apply foldM_ext; intros r' t _; rewrite hessian_term_reads; reflexivity. }
  destruct (i =? j)%nat.
  - destruct (attr s2 numc) as [n |]; simpl; [| reflexivity].
    apply foldM_ext; intros r k _.
    apply mask_pass; [assumption |]; intros m; apply Hterms.
  - apply mask_pass; [assumption |]; intros m; apply Hterms.
Qed.

Lemma gradient_reads : gradient s1 = gradient s2.
Proof.
  unfold gradient; rewrite attr_reads.
  destruct (attr s2 numc) as [n |]; simpl; [| reflexivity].
  apply mapM_ext; intros i _; apply gradient_component_reads.
Qed.

Lemma hessian_reads : hessian s1 = hessian s2.
Proof.
  unfold hessian; rewrite attr_reads.
  destruct (attr s2 numc) as [n |]; simpl; [| reflexivity].
  replace (mapM (fun index1 => mapM (fun index2 => hessian_component s1 index1 index2)
                                    (xrange n)) (xrange n))
    with (mapM (fun index1 => mapM (fun index2 => hessian_component s2 index1 index2)
                                    (xrange n)) (xrange n)); [reflexivity |].
  apply mapM_ext; intros i _; apply mapM_ext; intros j _.
  symmetry; apply hessian_component_reads.
Qed.

(** Whatever a query returns on one object it returns on the other. *)
Lemma query_reads (c : method) :
  is_query c = true ->
  returned_value (call c s1) = returned_value (call c s2).
Proof.
  intros Hc; destruct c; simpl in *; try discriminate;
    unfold gradient_flat, hessian_flat;
    rewrite ?energy_reads_weights, ?gradient_component_reads, ?gradient_reads,
      ?hessian_component_reads, ?hessian_reads;
    repeat match goal with
           | |- context [bind ?c _] =>
               lazymatch c with
               | bind _ _ => fail
               | _ => destruct c; simpl
               end
           end; reflexivity.
Qed.

End Queries_read.

(** X1: [update_coordinates] with every coordinate moved by the same
    vector leaves what every query returns unchanged: [energy], the
    gradient and the Hessian, per component, whole and flat. *)
Theorem queries_translation_invariant (self : PairFF) (cs : list vec3) (t : vec3)
    (c : method) :
  is_query c = true ->
  exists s0 s1,
    update_coordinates (Some cs) self = Ok s0 /\
    update_coordinates (Some (translate t cs)) self = Ok s1 /\
    returned_value (call c s1) = returned_value (call c s0).
Proof.
  intros Hc; do 2 eexists; split; [reflexivity |]; split; [reflexivity |].
  apply query_reads; simpl; auto using same_weights_refl.
  rewrite build_geometry_translate; reflexivity.
Qed.

Lemma queries_translation_invariant_witness :
  let self := {| mask := [[0; 1]; [1; 0]]; coordinates := None; geom := None;
                 pot := Dispersion [[0; 2]; [2; 0]] |} in
  exists s0 s1,
    update_coordinates (Some [V3 0 0 0; V3 1 0 0]) self = Ok s0 /\
    update_coordinates (Some (translate (V3 1 2 3) [V3 0 0 0; V3 1 0 0])) self
    = Ok s1 /\
    returned_value (call call_hessian_flat s1)
    = returned_value (call call_hessian_flat s0).
Proof.
  intros self.
  apply (queries_translation_invariant self [V3 0 0 0; V3 1 0 0] (V3 1 2 3)
           call_hessian_flat).
  reflexivity.
Defined.

Lemma get2_map {A B : Type} (f : A -> B) (a : list (list A)) (i j : nat) :
  get2 (map (map f) a) i j = (x <- get2 a i j ;; Ok (f x)).
Proof.
  unfold get2, get1; rewrite nth_error_map.
  destruct (nth_error a i) as [row |]; simpl; [| reflexivity].
  rewrite nth_error_map; destruct (nth_error row j); reflexivity.
Qed.

Lemma same_weights_clip (m : list (list R)) : same_weights m (clip_mask m).
Proof.
  intros i j; unfold clip_mask; rewrite get2_map.
  destruct (get2 m i j) as [x |]; simpl; [| left; reflexivity].
  destruct (Rlt_dec 0 x); [left; reflexivity |].
  right; exists x, 0; repeat split; auto; lra.
Qed.

(** X2: a mask entry that is not positive, a negative weight for one,
    switches its pair off exactly as a zero does: every query returns the
    same with the mask as it is and with the entries that are not positive
    replaced by zero. *)
Theorem nonpositive_weights_are_off (self : PairFF) (c : method) :
  is_query c = true ->
  returned_value (call c self) =
  returned_value (call c {| mask := clip_mask (mask self);
                            coordinates := coordinates self;
                            geom := geom self; pot := pot self |}).
Proof.
  intros Hc; apply query_reads; simpl; auto using same_weights_clip.
Qed.

Lemma nonpositive_weights_are_off_witness :
  let self := {| mask := [[0; -1]; [-1; 0]];
                 coordinates := Some [V3 0 0 0; V3 1 0 0];
                 geom := Some (build_geometry [V3 0 0 0; V3 1 0 0]);
                 pot := Coulomb (Some [1; -1]) None |} in
  returned_value (call call_energy self) =
  returned_value (call call_energy
                    {| mask := clip_mask (mask self);
                       coordinates := coordinates self;
                       geom := geom self; pot := pot self |}).
Proof.
  intros self; apply (nonpositive_weights_are_off self call_energy); reflexivity.
Defined.

(** ** The constructor and [update_coordinates] *)

(** X3: the constructor changes the mask on the diagonal only: the
    evaluator's mask has the shape of the mask it was given and the same
    entries off the diagonal, and the coordinates and the class attributes
    are stored as given. *)
Theorem constructor_keeps_off_diagonal (n : nat) (mask0 : list (list R))
    (coordinates0 : option (list vec3)) (pot0 : potential) :
  square n mask0 ->
  exists self,
    new_PairFF mask0 coordinates0 pot0 = Ok self /\
    square n (mask self) /\
    (forall i j, (i < n)%nat -> (j < n)%nat -> i <> j ->
       get2 (mask self) i j = get2 mask0 i j) /\
    coordinates self = coordinates0 /\ pot self = pot0.
Proof.
  intros Hsq; eexists; split; [apply new_PairFF_Ok |]; simpl.
  split; [apply square_zero_diagonal; assumption |].
  split; [| split; reflexivity].
  intros i j Hi Hj Hne; rewrite (get2_zero_diagonal n) by assumption.
  apply Nat.eqb_neq in Hne; rewrite Hne; reflexivity.
Qed.

Lemma constructor_keeps_off_diagonal_witness :
  exists self,
    new_PairFF [[5; 2]; [3; 7]] None Abstract = Ok self /\
    square 2 (mask self) /\
    (forall i j, (i < 2)%nat -> (j < 2)%nat -> i <> j ->
       get2 (mask self) i j = get2 [[5; 2]; [3; 7]] i j) /\
    coordinates self = None /\ pot self = Abstract.
Proof.
  apply (constructor_keeps_off_diagonal 2 [[5; 2]; [3; 7]] None Abstract).
  split; [reflexivity | repeat constructor].
Defined.

(** X4: the last coordinates win: [update_coordinates] with new
    coordinates leaves the evaluator as if the earlier coordinates had never
    been supplied, [update_coordinates()] without an argument right after
    leaves it as it is, and the geometry cache always has one row and one
    column per stored coordinate. *)
Theorem update_coordinates_composes (self : PairFF) (c1 c2 : list vec3) :
  (s1 <- update_coordinates (Some c1) self ;; update_coordinates (Some c2) s1)
  = update_coordinates (Some c2) self /\
  (s1 <- update_coordinates (Some c1) self ;; update_coordinates None s1)
  = update_coordinates (Some c1) self /\
  forall s1 g, update_coordinates (Some c1) self = Ok s1 -> geom s1 = Some g ->
    numc g = length c1 /\
    square (length c1) (distances g) /\ square (length c1) (deltas g) /\
    square (length c1) (directions g) /\ square (length c1) (dirouters g).
Proof.
  split; [reflexivity |]; split; [reflexivity |].
  intros s1 g H Hg; inversion H; subst s1; simpl in Hg; inversion Hg; subst g.
  assert (Hsq : forall A (field : pair_geom -> A),
             square (length c1) (pair_table field c1)).
  { intros A field; unfold square, pair_table.
    rewrite length_map, length_enumerate; split; [reflexivity |].
    apply Forall_forall; intros row Hrow; apply in_map_iff in Hrow.
    destruct Hrow as ([i c] & <- & _).
    rewrite length_map, length_enumerate; reflexivity. }
  simpl; repeat split; apply Hsq.
Qed.

(** ** Indices out of range and the abstract base class *)

(** X5: the atom index of the per-atom accessors is checked only by the
    lookups in the mask: with at least one atom in the geometry cache, an
    index beyond the rows of the mask makes [gradient_component] and
    [hessian_component] raise [IndexError], whatever the class; with
    no atom they return the zero vector and the zero block for every
    index. *)
Theorem atom_index_out_of_range (self : PairFF) (g : geometry) (i : nat) :
  geom self = Some g ->
  (length (mask self) <= i)%nat ->
  ((1 <= numc g)%nat ->
     gradient_component self i = Raise IndexError /\
     forall j, hessian_component self i j = Raise IndexError) /\
  (numc g = 0%nat ->
     gradient_component self i = Ok vzero /\
     hessian_component self i i = Ok mzero).
Proof.
  intros Hg Hi.
  pose proof (fun j => get2_out_of_range (mask self) i j Hi) as Hm.
  unfold gradient_component, hessian_component, attr; rewrite Hg; simpl.
  rewrite Nat.eqb_refl; split.
  - intros Hn; destruct (numc g) as [| n] eqn:En; [lia |].
    unfold xrange; simpl; rewrite Hm; simpl; split; [reflexivity |].
    intros j; destruct (i =? j)%nat; simpl; rewrite ?Hm; reflexivity.
  - intros ->; simpl; split; reflexivity.
Qed.

Lemma atom_index_out_of_range_witness :
  let g := build_geometry [V3 0 0 0; V3 1 0 0] in
  let self := {| mask := [[0; 1]; [1; 0]];
                 coordinates := Some [V3 0 0 0; V3 1 0 0];
                 geom := Some g; pot := Pauli [[0; 1]; [1; 0]] |} in
  gradient_component self 2 = Raise IndexError /\
  forall j, hessian_component self 2 j = Raise IndexError.
Proof.
  intros g self.
  destruct (atom_index_out_of_range self g 2 eq_refl) as [H _];
    [simpl; lia |].
  apply H; simpl; lia.
Defined.

(** X6: on an object of the base class, whose term providers are not
    implemented, [energy] raises [NotImplementedError] as soon as one pair
    below the diagonal has a positive mask entry; when no such pair has, it
    returns zero, as it does for every class. *)
Theorem base_class_energy (self : PairFF) (g : geometry) :
  geom self = Some g ->
  covers (numc g) (mask self) ->
  (pot self = Abstract ->
   (exists i j m, (j < i)%nat /\ (i < numc g)%nat /\
                  get2 (mask self) i j = Ok m /\ 0 < m) ->
   energy self = Raise NotImplementedError) /\
  ((forall i j m, (j < i)%nat -> (i < numc g)%nat ->
                  get2 (mask self) i j = Ok m -> ~ 0 < m) ->
   energy self = Ok 0).
Proof.
  intros Hg Hc; split.
  - intros Hp (i & j & m & Hji & Hi & Hm & Hpos).
    destruct (energy self) as [x | e] eqn:E; unfold energy, attr in E;
      rewrite Hg in E; simpl in E.
    + exfalso.
      destruct (foldM_Ok_pass _ _ _ _ i E) as (r1 & r2 & E1);
        [apply in_xrange; assumption |].
      destruct (foldM_Ok_pass _ _ _ _ j E1) as (r3 & r4 & E2);
        [apply in_xrange; assumption |].
      rewrite Hm in E2; simpl in E2.
      destruct (Rlt_dec 0 m); [| contradiction].
      unfold yield_pair_energies in E2; rewrite Hp in E2; discriminate.
    + f_equal.
      apply foldM_Raise in E; destruct E as (r1 & i' & Hi' & E).
      apply foldM_Raise in E; destruct E as (r2 & j' & Hj' & E).
      apply in_xrange in Hi', Hj'.
      destruct (Hc i' j') as [m' Hm']; [lia | lia |].
      rewrite Hm' in E; simpl in E.
      destruct (Rlt_dec 0 m'); [| discriminate].
      unfold yield_pair_energies in E; rewrite Hp in E; simpl in E; congruence.
  - intros Hoff; unfold energy, attr; rewrite Hg; simpl.
    apply foldM_id; intros i Hi; apply foldM_id; intros j Hj.
    apply in_xrange in Hi, Hj.
    destruct (Hc i j) as [m Hm]; [lia | lia |].
    rewrite Hm; simpl; destruct (Rlt_dec 0 m); [| reflexivity].
    exfalso; eapply Hoff; eauto.
Qed.

Lemma base_class_energy_witness :
  let g := build_geometry [V3 0 0 0; V3 1 0 0] in
  let self := {| mask := [[0; 1]; [1; 0]];
                 coordinates := Some [V3 0 0 0; V3 1 0 0];
                 geom := Some g; pot := Abstract |} in
  energy self = Raise NotImplementedError.
Proof.
  intros g self.
  destruct (base_class_energy self g eq_refl) as [H _].
  - apply square_covers; split; [reflexivity | repeat constructor].
  - apply H; [reflexivity |].
    exists 1%nat, 0%nat, 1; repeat split; simpl; try lia; lra.
Defined.

(** ** The whole gradient and Hessian and their flat forms *)

Lemma mapM_Ok_nth {A B : Type} (f : A -> result B) (l : list A) (bs : list B) :
  mapM f l = Ok bs ->
  length bs = length l /\
  forall i a, nth_error l i = Some a ->
    exists b, nth_error bs i = Some b /\ f a = Ok b.
Proof.
  revert bs; induction l as [| x l IH]; intros bs H; simpl in H.
  - inversion H; subst; split; [reflexivity |]; intros [| i] a Ha; discriminate.
  - apply bind_Ok_inv in H; destruct H as (b & Hb & H).
    apply bind_Ok_inv in H; destruct H as (bs' & Hbs & H).
    inversion H; subst; destruct (IH bs' Hbs) as [Hl Hn]; split; [simpl; lia |].
    intros [| i] a Ha; simpl in *; [inversion Ha; subst; eauto | auto].
Qed.

Lemma nth_error_xrange (n i : nat) : (i < n)%nat -> nth_error (xrange n) i = Some i.
Proof.
  intros H; unfold xrange; rewrite nth_error_seq.
  destruct (Nat.ltb_spec i n); [reflexivity | lia].
Qed.

Lemma length_vec_list (v : vec3) : length (vec_list v) = 3%nat.
Proof. reflexivity. Qed.

(** X7: when [gradient] returns, its entry [i] is what
    [gradient_component(i)] returns, there is one entry per atom, and
    [gradient_flat] returns the [3 * numc] numbers with component [a] of
    atom [i] at position [3 * i + a]. *)
Theorem gradient_layout (self : PairFF) (n : nat) (g : list vec3) :
  attr self numc = Ok n ->
  gradient self = Ok g ->
  length g = n /\
  exists flat,
    gradient_flat self = Ok flat /\ length flat = (3 * n)%nat /\
    forall i, (i < n)%nat ->
      exists v,
        gradient_component self i = Ok v /\ nth_error g i = Some v /\
        forall a, (a < 3)%nat ->
          nth_error flat (3 * i + a) = nth_error (vec_list v) a.
Proof.
  intros Hn Hgrad; unfold gradient_flat; rewrite Hgrad; cbn [bind].
  unfold gradient in Hgrad; rewrite Hn in Hgrad; simpl in Hgrad.
  apply mapM_Ok_nth in Hgrad; destruct Hgrad as [Hl Hnth].
  unfold xrange in Hl; rewrite length_seq in Hl.
  assert (Hrows : Forall (fun row => length row = 3%nat) (map vec_list g)).
  { apply Forall_forall; intros row Hrow; apply in_map_iff in Hrow.
    destruct Hrow as (v & <- & _); reflexivity. }
  split; [assumption |]; eexists; split; [reflexivity |]; split.
  - rewrite (length_concat_square 3), length_map by assumption; lia.
  - intros i Hi; destruct (Hnth i i (nth_error_xrange n i Hi)) as (v & Hv & Hc).
    exists v; repeat split; try assumption.
    intros a Ha; rewrite (Nat.mul_comm 3 i).
    rewrite (nth_error_concat_square 3) by assumption.
    rewrite nth_error_map, Hv; reflexivity.
Qed.

Lemma gradient_layout_witness :
  let g := build_geometry [V3 1 2 3] in
  let self := {| mask := [[0]]; coordinates := Some [V3 1 2 3];
                 geom := Some g; pot := Abstract |} in
  length [vzero] = 1%nat /\
  exists flat,
    gradient_flat self = Ok flat /\ length flat = (3 * 1)%nat /\
    forall i, (i < 1)%nat ->
      exists v,
        gradient_component self i = Ok v /\ nth_error [vzero] i = Some v /\
        forall a, (a < 3)%nat ->
          nth_error flat (3 * i + a) = nth_error (vec_list v) a.
Proof.
  intros g self; apply (gradient_layout self 1 [vzero]); [reflexivity |].
  unfold gradient, gradient_component, attr; simpl.
  destruct (Rlt_dec 0 0); [lra | reflexivity].
Defined.

(** X8: when [hessian] returns, [hessian_flat] returns a matrix of
    [3 * numc] rows of [3 * numc] numbers whose entry
    [(3 * i + a, 3 * j + b)] is the entry [(a, b)] of the block that
    [hessian_component(i, j)] returns, and which the array of [hessian]
    holds at [[i][a][j][b]]. *)
Theorem hessian_layout (self : PairFF) (n : nat)
    (h : list (list (list (list R)))) :
  attr self numc = Ok n ->
  hessian self = Ok h ->
  exists flat,
    hessian_flat self = Ok flat /\
    length flat = (3 * n)%nat /\
    Forall (fun row => length row = (3 * n)%nat) flat /\
    forall i j, (i < n)%nat -> (j < n)%nat ->
      exists block,
        hessian_component self i j = Ok block /\
        forall a b, (a < 3)%nat -> (b < 3)%nat ->
          get2 flat (3 * i + a) (3 * j + b) = get2 (mat_rows block) a b /\
          (row <- get2 h i a ;; get2 row j b) = get2 (mat_rows block) a b.
Proof.
  intros Hn Hh; unfold hessian_flat; rewrite Hh; cbn [bind].
  unfold hessian in Hh; rewrite Hn in Hh; cbn [bind] in Hh.
  apply bind_Ok_inv in Hh; destruct Hh as (blocks & Hb & Hh).
  inversion Hh; subst h; clear Hh.
  apply mapM_Ok_nth in Hb; destruct Hb as [Hl Hnth].
  unfold xrange in Hl; rewrite length_seq in Hl.
  set (slab := fun row_blocks : list mat3 =>
                 map (fun a => map (fun block => nth a (mat_rows block) [])
                                   row_blocks) (xrange 3)).
  assert (Hrow_len : forall bs, In bs blocks -> length bs = n).
  { intros bs Hbs; apply In_nth_error in Hbs; destruct Hbs as [i Hi].
    assert (Hin : (i < n)%nat)
      by (rewrite <- Hl; apply nth_error_Some; congruence).
    destruct (Hnth i i (nth_error_xrange n i Hin)) as (bs' & Hbs' & Hm).
    assert (bs' = bs) by congruence; subst bs'.
    apply mapM_Ok_nth in Hm; destruct Hm as [Hlen _].
    unfold xrange in Hlen; rewrite length_seq in Hlen; exact Hlen. }
  assert (Hslabs : Forall (fun s => length s = 3%nat) (map slab blocks)).
  { apply Forall_forall; intros s Hs; apply in_map_iff in Hs.
    destruct Hs as (bs & <- & _); reflexivity. }
  assert (Hthree : forall bs a,
             Forall (fun v => length v = 3%nat)
                    (map (fun block : mat3 => nth a (mat_rows block) []) bs) \/
             (3 <= a)%nat).
  { intros bs a; destruct (Nat.lt_ge_cases a 3) as [Ha | Ha]; [left | right; lia].
    apply Forall_forall; intros v Hv; apply in_map_iff in Hv.
    destruct Hv as (block & <- & _).
    destruct a as [| [| [| a]]]; try lia; reflexivity. }
  eexists; split; [reflexivity |]; split; [| split].
  - rewrite length_map, (length_concat_square 3), length_map by assumption; lia.
  - apply Forall_forall; intros row Hrow; apply in_map_iff in Hrow.
    destruct Hrow as (parts & <- & Hparts); apply in_concat in Hparts.
    destruct Hparts as (s & Hs & Hparts); apply in_map_iff in Hs.
    destruct Hs as (bs & <- & Hbs); simpl in Hparts.
    destruct Hparts as [<- | [<- | [<- | []]]];
      [destruct (Hthree bs 0%nat) as [H3 | H3]
      | destruct (Hthree bs 1%nat) as [H3 | H3]
      | destruct (Hthree bs 2%nat) as [H3 | H3]]; try lia; simpl in H3;
      rewrite (length_concat_square 3), length_map, (Hrow_len bs) by assumption;
      lia.
  - intros i j Hi Hj.
    destruct (Hnth i i (nth_error_xrange n i Hi)) as (bs & Hbs & Hm).
    apply mapM_Ok_nth in Hm; destruct Hm as [_ Hm].
    destruct (Hm j j (nth_error_xrange n j Hj)) as (block & Hblock & Hc).
    exists block; split; [assumption |]; intros a b Ha Hb.
    destruct (Hthree bs a) as [H3 | H3]; [| lia].
    destruct a as [| [| [| a]]]; try lia; cbn [nth mat_rows] in H3; split.
    all: unfold get2 at 1, get1 at 1.
    all: rewrite nth_error_map, ?(Nat.mul_comm 3 i).
    all: rewrite ?(nth_error_concat_square 3) by assumption.
    all: rewrite ?nth_error_map, Hbs; cbn [option_map nth_error bind].
    all: unfold get2 at 1, get1 at 1 2 || unfold get1 at 1.
    all: rewrite ?(Nat.mul_comm 3 j).
    all: rewrite ?(nth_error_concat_square 3) by assumption.
    all: rewrite ?nth_error_map, ?Hblock; cbn [option_map nth_error bind nth mat_rows].
    all: try reflexivity.
    all: rewrite nth_error_map, Hblock; reflexivity.
Qed.

Lemma hessian_layout_witness :
  let g := build_geometry [V3 1 2 3] in
  let self := {| mask := [[0]]; coordinates := Some [V3 1 2 3];
                 geom := Some g; pot := Abstract |} in
  exists flat,
    hessian_flat self = Ok flat /\
    length flat = (3 * 1)%nat /\
    Forall (fun row => length row = (3 * 1)%nat) flat.
Proof.
  intros g self.
  assert (H : hessian self = Ok [repeat [[0; 0; 0]] 3]).
  { unfold hessian, hessian_component, attr; simpl.
    destruct (Rlt_dec 0 0); [lra | reflexivity]. }
  destruct (hessian_layout self 1 _ eq_refl H) as (flat & Hf & Hl & Hr & _).
  exists flat; auto.
Defined.

(** ** The scalars of [DispersionFF] and [PauliFF] *)

(** X9: for a pair at distance [r] with strength [k], the three
    providers of a [DispersionFF] yield one term each, with the scalars
    [k / r^6], [-6 k / r^7] and [42 k / r^8]; away from [r = 0] the second
    is the derivative in [r] of the first and the third that of the
    second. *)
Theorem dispersion_scalars (self : PairFF) (strengths : list (list R))
    (g : geometry) (i j : nat) (k r : R) :
  pot self = Dispersion strengths ->
  get2 strengths i j = Ok k ->
  geom self = Some g ->
  get2 (distances g) i j = Ok r ->
  r <> 0 ->
  yield_pair_energies self i j = Ok [(k / r ^ 6, 1)] /\
  yield_pair_gradients self i j = Ok [(-6 * k / r ^ 7, vzero)] /\
  yield_pair_hessians self i j = Ok [(42 * k / r ^ 8, mzero)] /\
  derivable_pt_lim (fun x => k / x ^ 6) r (-6 * k / r ^ 7) /\
  derivable_pt_lim (fun x => -6 * k / x ^ 7) r (42 * k / r ^ 8).
Proof.
  intros Hp Hk Hg Hr Hne.
  unfold yield_pair_energies, yield_pair_gradients, yield_pair_hessians,
    DispersionFF.yield_pair_energies, DispersionFF.yield_pair_gradients,
    DispersionFF.yield_pair_hessians, attr.
  rewrite Hp, Hk, Hg; cbn [bind]; rewrite Hr; cbn [bind].
  split; [reflexivity |]; split; [reflexivity |]; split; [reflexivity |]; split.
  - apply (radial_derivative _ k 6); [assumption | reflexivity | radial_value].
  - apply (radial_derivative _ (-6 * k) 7);
      [assumption | reflexivity | radial_value].
Qed.

Lemma dispersion_scalars_witness :
  let g := build_geometry [V3 0 0 0; V3 1 0 0] in
  let self := {| mask := [[0; 1]; [1; 0]];
                 coordinates := Some [V3 0 0 0; V3 1 0 0];
                 geom := Some g; pot := Dispersion [[0; 2]; [2; 0]] |} in
  let r := norm (vsub (V3 1 0 0) (V3 0 0 0)) in
  yield_pair_energies self 1 0 = Ok [(2 / r ^ 6, 1)] /\
  yield_pair_gradients self 1 0 = Ok [(-6 * 2 / r ^ 7, vzero)] /\
  yield_pair_hessians self 1 0 = Ok [(42 * 2 / r ^ 8, mzero)] /\
  derivable_pt_lim (fun x => 2 / x ^ 6) r (-6 * 2 / r ^ 7) /\
  derivable_pt_lim (fun x => -6 * 2 / x ^ 7) r (42 * 2 / r ^ 8).
Proof.
  intros g self r.
  apply (dispersion_scalars self [[0; 2]; [2; 0]] g 1 0 2 r);
    try reflexivity.
  unfold r; rewrite norm_unit_x_pos; lra.
Defined.

(** X10: the same for a [PauliFF]: the scalars are [k / r^12],
    [-12 k / r^13] and [156 k / r^14], each the derivative in [r] of the one
    before. *)
Theorem pauli_scalars (self : PairFF) (strengths : list (list R))
    (g : geometry) (i j : nat) (k r : R) :
  pot self = Pauli strengths ->
  get2 strengths i j = Ok k ->
  geom self = Some g ->
  get2 (distances g) i j = Ok r ->
  r <> 0 ->
  yield_pair_energies self i j = Ok [(k / r ^ 12, 1)] /\
  yield_pair_gradients self i j = Ok [(-12 * k / r ^ 13, vzero)] /\
  yield_pair_hessians self i j = Ok [(156 * k / r ^ 14, mzero)] /\
  derivable_pt_lim (fun x => k / x ^ 12) r (-12 * k / r ^ 13) /\
  derivable_pt_lim (fun x => -12 * k / x ^ 13) r (156 * k / r ^ 14).
Proof.
  intros Hp Hk Hg Hr Hne.
  unfold yield_pair_energies, yield_pair_gradients, yield_pair_hessians,
    PauliFF.yield_pair_energies, PauliFF.yield_pair_gradients,
    PauliFF.yield_pair_hessians, attr.
  rewrite Hp, Hk, Hg; cbn [bind]; rewrite Hr; cbn [bind].
  split; [reflexivity |]; split; [reflexivity |]; split; [| split].
  - replace (12 * 13 * k * powerRZ r (-14)) with (156 * k / r ^ 14);
      [reflexivity |].
    change (powerRZ r (-14)) with (/ r ^ 14); unfold Rdiv; ring.
  - apply (radial_derivative _ k 12); [assumption | reflexivity | radial_value].
  - apply (radial_derivative _ (-12 * k) 13);
      [assumption | reflexivity | radial_value].
Qed.

Lemma pauli_scalars_witness :
  let g := build_geometry [V3 0 0 0; V3 1 0 0] in
  let self := {| mask := [[0; 1]; [1; 0]];
                 coordinates := Some [V3 0 0 0; V3 1 0 0];
                 geom := Some g; pot := Pauli [[0; 2]; [2; 0]] |} in
  let r := norm (vsub (V3 1 0 0) (V3 0 0 0)) in
  yield_pair_energies self 1 0 = Ok [(2 / r ^ 12, 1)] /\
  yield_pair_gradients self 1 0 = Ok [(-12 * 2 / r ^ 13, vzero)] /\
  yield_pair_hessians self 1 0 = Ok [(156 * 2 / r ^ 14, mzero)] /\
  derivable_pt_lim (fun x => 2 / x ^ 12) r (-12 * 2 / r ^ 13) /\
  derivable_pt_lim (fun x => -12 * 2 / x ^ 13) r (156 * 2 / r ^ 14).
Proof.
  intros g self r.
  apply (pauli_scalars self [[0; 2]; [2; 0]] g 1 0 2 r); try reflexivity.
  unfold r; rewrite norm_unit_x_pos; lra.
Defined.

(** ** The energy as a sum over pairs *)

Lemma fold_left_terms (m : R) (terms : list (R * R)) (r : R) :
  fold_left (fun result '(se, ve) => result + se * ve * m) terms r =
  r + Rsum (map (fun '(se, ve) => se * ve * m) terms).
Proof.
  revert r; induction terms as [| [se ve] terms IH]; intros r; simpl; [ring |].
  rewrite IH; ring.
Qed.

(** A loop that adds one number per element adds their sum. *)
Lemma foldM_Rplus {A : Type} (f : A -> result R) (l : list A) (r : R) :
  foldM (fun result a => x <- f a ;; Ok (result + x)) l r =
  (xs <- mapM f l ;; Ok (r + Rsum xs)).
Proof.
  revert r; induction l as [| a l IH]; intros r; simpl.
  - f_equal; ring.
  - destruct (f a) as [x | e]; simpl; [| reflexivity].
    rewrite IH; destruct (mapM f l); simpl; [| reflexivity].
    f_equal; ring.
Qed.

Lemma energy_pass (self : PairFF) (i j : nat) (r : R) :
  (m <- get2 (mask self) i j ;;
   if Rlt_dec 0 m then
     terms <- yield_pair_energies self i j ;;
     Ok (fold_left (fun result '(se, ve) => result + se * ve * m) terms r)
   else Ok r) =
  (x <- pair_energy self i j ;; Ok (r + x)).
Proof.
  unfold pair_energy.
  destruct (get2 (mask self) i j) as [m |]; simpl; [| reflexivity].
  destruct (Rlt_dec 0 m); simpl; [| f_equal; ring].
  destruct (yield_pair_energies self i j) as [terms |]; simpl; [| reflexivity].
  f_equal; apply fold_left_terms.
Qed.

Lemma energy_as_sum (self : PairFF) (n : nat) :
  attr self numc = Ok n ->
  energy self =
  (rows <- mapM (fun i => xs <- mapM (pair_energy self i) (xrange i) ;;
                          Ok (Rsum xs)) (xrange n) ;;
   Ok (0 + Rsum rows)).
Proof.
  intros Hn; unfold energy; rewrite Hn; simpl.
  rewrite <- foldM_Rplus; apply foldM_ext; intros r i _.
  rewrite (foldM_ext _ (fun result j => x <- pair_energy self i j ;; Ok (result + x)))
    by (intros; apply energy_pass).
  rewrite foldM_Rplus; destruct (mapM _ (xrange i)); reflexivity.
Qed.

Lemma pair_energy_total (self : PairFF) (cs : list vec3) (i j : nat) :
  geom self = Some (build_geometry cs) ->
  covers (length cs) (mask self) ->
  parameters_cover (length cs) (pot self) ->
  (i < length cs)%nat -> (j < length cs)%nat ->
  pair_energy self i j = Ok (returned_or 0 (pair_energy self i j)).
Proof.
  intros Hg Hm Hp Hi Hj.
  assert (H : exists x, pair_energy self i j = Ok x); [| destruct H as [x ->]; auto].
  unfold pair_energy; destruct (Hm i j Hi Hj) as [m ->]; simpl.
  destruct (Rlt_dec 0 m); [| eauto].
  destruct (yield_pair_energies_total self cs i j Hg Hp Hi Hj) as [ts ->].
  simpl; eauto.
Qed.

(** With a geometry cache of [n] atoms, a mask and parameters that cover
    them, [energy] returns the sum of the contributions of the pairs
    [j < i < n]. *)
Lemma energy_sum_below (self : PairFF) (cs : list vec3) :
  geom self = Some (build_geometry cs) ->
  covers (length cs) (mask self) ->
  parameters_cover (length cs) (pot self) ->
  energy self =
  Ok (sum_below (length cs) (fun i j => returned_or 0 (pair_energy self i j))).
Proof.
  intros Hg Hm Hp.
  rewrite (energy_as_sum self (length cs)) by (unfold attr; rewrite Hg; reflexivity).
  rewrite (mapM_Ok _ (fun i => Rsum (map (fun j => returned_or 0 (pair_energy self i j))
                                         (xrange i)))).
  - simpl; unfold sum_below; f_equal; ring.
  - intros i Hi; apply in_xrange in Hi.
    rewrite (mapM_Ok _ (fun j => returned_or 0 (pair_energy self i j)));
      [reflexivity |].
    intros j Hj; apply in_xrange in Hj.
    apply (pair_energy_total self cs); auto; lia.
Qed.

Lemma sum_below_ext (n : nat) (f g : nat -> nat -> R) :
  (forall i j, (j < i)%nat -> (i < n)%nat -> f i j = g i j) ->
  sum_below n f = sum_below n g.
Proof.
  intros H; unfold sum_below; f_equal.
  apply map_ext_in; intros i Hi; apply in_xrange in Hi; f_equal.
  apply map_ext_in; intros j Hj; apply in_xrange in Hj; auto.
Qed.

Lemma get1_nth {A : Type} (a : list A) (i : nat) (d : A) :
  (i < length a)%nat -> get1 a i = Ok (nth i a d).
Proof.
  intros H; unfold get1; rewrite (nth_error_nth' a d H); reflexivity.
Qed.

Lemma get2_entry (n : nat) (a : list (list R)) (i j : nat) :
  square n a -> (i < n)%nat -> (j < n)%nat -> get2 a i j = Ok (entry a i j).
Proof.
  intros [Hl Hr] Hi Hj; unfold get2, entry.
  rewrite (get1_nth a i []) by lia; simpl; apply get1_nth.
  rewrite Forall_forall in Hr; rewrite Hr; [assumption |].
  apply nth_In; lia.
Qed.

Lemma get2_distance (cs : list vec3) (i j : nat) :
  (i < length cs)%nat -> (j < length cs)%nat ->
  get2 (distances (build_geometry cs)) i j = Ok (separation cs i j).
Proof.
  intros Hi Hj; simpl.
  rewrite (get2_pair_table _ cs i j (position cs i) (position cs j))
    by (apply nth_error_nth'; assumption).
  unfold pair_geometry; destruct (negb (i =? j)%nat); reflexivity.
Qed.

(** X11: Coulomb's law. An evaluator built with charges and no dipoles
    returns from [energy] the sum over the pairs [j < i] with a positive
    mask entry of [q_i q_j / r_ij], weighted by the mask entry. *)
Theorem coulomb_law (n : nat) (mask0 : list (list R)) (cs : list vec3)
    (q : list R) :
  square n mask0 -> length cs = n -> length q = n ->
  exists self,
    new_PairFF mask0 (Some cs) (Coulomb (Some q) None) = Ok self /\
    energy self =
    Ok (sum_below n (fun i j =>
          if Rlt_dec 0 (entry mask0 i j)
          then charge q i * charge q j / separation cs i j * entry mask0 i j
          else 0)).
Proof.
  intros Hsq Hn Hq; eexists; split; [apply new_PairFF_Ok |].
  subst n; rewrite (energy_sum_below _ cs); simpl; auto.
  - f_equal; apply sum_below_ext; intros i j Hji Hi.
    unfold pair_energy, yield_pair_energies, CoulombFF.yield_pair_energies, attr.
    cbn [mask pot geom option_map bind].
    rewrite (get2_zero_diagonal (length cs)) by (assumption || lia).
    replace (i =? j)%nat with false by (symmetry; apply Nat.eqb_neq; lia).
    rewrite (get2_entry (length cs)) by (assumption || lia); cbn [bind].
    destruct (Rlt_dec 0 (entry mask0 i j)); [| reflexivity].
    rewrite get2_distance by lia; cbn [bind CoulombFF.read_charges].
    rewrite (get1_nth q i 0), (get1_nth q j 0) by lia.
    cbn [bind app map Rsum fold_right returned_or]; unfold charge, Rdiv; ring.
  - apply square_covers, square_zero_diagonal; assumption.
  - split; intros x H; inversion H; subst; lia.
Qed.

Lemma coulomb_law_witness :
  exists self,
    new_PairFF [[0; 1]; [1; 0]] (Some [V3 0 0 0; V3 1 0 0])
               (Coulomb (Some [1; -1]) None) = Ok self /\
    energy self =
    Ok (sum_below 2 (fun i j =>
          if Rlt_dec 0 (entry [[0; 1]; [1; 0]] i j)
          then charge [1; -1] i * charge [1; -1] j
               / separation [V3 0 0 0; V3 1 0 0] i j * entry [[0; 1]; [1; 0]] i j
          else 0)).
Proof.
  apply (coulomb_law 2 [[0; 1]; [1; 0]] [V3 0 0 0; V3 1 0 0] [1; -1]);
    try reflexivity.
  split; [reflexivity | repeat constructor].
Defined.

(** X12: the dispersion and the repulsion energy. An evaluator built
    with strengths [k] returns from [energy] the sum over the pairs
    [j < i] with a positive mask entry of [k_ij / r_ij^6] for a
    [DispersionFF] and of [k_ij / r_ij^12] for a [PauliFF], weighted by the
    mask entry. *)
Theorem inverse_power_laws (n : nat) (mask0 : list (list R)) (cs : list vec3)
    (k : list (list R)) :
  square n mask0 -> length cs = n -> square n k ->
  (exists self,
     new_PairFF mask0 (Some cs) (Dispersion k) = Ok self /\
     energy self =
     Ok (sum_below n (fun i j =>
           if Rlt_dec 0 (entry mask0 i j)
           then entry k i j / separation cs i j ^ 6 * entry mask0 i j
           else 0))) /\
  (exists self,
     new_PairFF mask0 (Some cs) (Pauli k) = Ok self /\
     energy self =
     Ok (sum_below n (fun i j =>
           if Rlt_dec 0 (entry mask0 i j)
           then entry k i j / separation cs i j ^ 12 * entry mask0 i j
           else 0))).
Proof.
  intros Hsq Hn Hk; subst n.
  split; eexists; (split; [apply new_PairFF_Ok |]);
    rewrite (energy_sum_below _ cs); cbn [mask geom pot option_map parameters_cover];
    auto;
    try (apply square_covers; assumption);
    try (apply square_covers, square_zero_diagonal; assumption).
  all: f_equal; apply sum_below_ext; intros i j Hji Hi.
  all: unfold pair_energy, yield_pair_energies,
         DispersionFF.yield_pair_energies, PauliFF.yield_pair_energies, attr.
  all: cbn [mask pot geom option_map bind].
  all: rewrite (get2_zero_diagonal (length cs)) by (assumption || lia).
  all: replace (i =? j)%nat with false by (symmetry; apply Nat.eqb_neq; lia).
  all: rewrite (get2_entry (length cs) mask0) by (assumption || lia); cbn [bind].
  all: destruct (Rlt_dec 0 (entry mask0 i j)); [| reflexivity].
  all: rewrite (get2_entry (length cs) k) by (assumption || lia); cbn [bind].
  all: rewrite get2_distance by lia.
  all: cbn [bind app map Rsum fold_right returned_or].
  - change (powerRZ (separation cs i j) (-6)) with (/ separation cs i j ^ 6).
    unfold Rdiv; ring.
  - change (powerRZ (separation cs i j) (-12)) with (/ separation cs i j ^ 12).
    unfold Rdiv; ring.
Qed.

Lemma inverse_power_laws_witness :
  exists self,
    new_PairFF [[0; 1]; [1; 0]] (Some [V3 0 0 0; V3 1 0 0])
               (Dispersion [[0; 2]; [2; 0]]) = Ok self /\
    energy self =
    Ok (sum_below 2 (fun i j =>
          if Rlt_dec 0 (entry [[0; 1]; [1; 0]] i j)
          then entry [[0; 2]; [2; 0]] i j
               / separation [V3 0 0 0; V3 1 0 0] i j ^ 6
               * entry [[0; 1]; [1; 0]] i j
          else 0)).
Proof.
  apply (inverse_power_laws 2 [[0; 1]; [1; 0]] [V3 0 0 0; V3 1 0 0]
           [[0; 2]; [2; 0]]); try reflexivity;
    (split; [reflexivity | repeat constructor]).
Defined.

(** ** Switching one pair off *)

(** Two sums whose summands differ at one index differ by the difference
    of the summands there. *)
Lemma Rsum_point (f g : nat -> R) (a : nat) (l : list nat) :
  NoDup l -> In a l -> (forall b, In b l -> b <> a -> f b = g b) ->
  Rsum (map f l) = Rsum (map g l) + (f a - g a).
Proof.
  intros Hnd; induction Hnd as [| b l Hb Hnd IH]; intros Hin Hfg; [destruct Hin |].
  simpl; destruct (Nat.eq_dec b a) as [-> | Hne].
  - replace (Rsum (map f l)) with (Rsum (map g l)); [ring |].
    unfold Rsum; f_equal; apply map_ext_in; intros c Hc; symmetry.
    apply Hfg; [right; assumption | intros ->; contradiction].
  - destruct Hin as [-> | Hin]; [contradiction |].
    rewrite IH by (auto; intros; apply Hfg; auto; right; assumption).
    rewrite (Hfg b) by (auto; left; reflexivity); ring.
Qed.

Lemma sum_below_point (n : nat) (f g : nat -> nat -> R) (i j : nat) :
  (j < i)%nat -> (i < n)%nat ->
  (forall i' j', (j' < i')%nat -> (i' < n)%nat -> (i', j') <> (i, j) ->
     f i' j' = g i' j') ->
  sum_below n f = sum_below n g + (f i j - g i j).
Proof.
  intros Hji Hi Hfg; unfold sum_below.
  rewrite (Rsum_point _ (fun i' => Rsum (map (g i') (xrange i'))) i);
    [| apply seq_NoDup | apply in_xrange; assumption |].
  - rewrite (Rsum_point (f i) (g i) j);
      [ring | apply seq_NoDup | apply in_xrange; assumption |].
    intros j' Hj' Hne; apply in_xrange in Hj'; apply Hfg; auto; congruence.
  - intros i' Hi' Hne; apply in_xrange in Hi'; f_equal.
    apply map_ext_in; intros j' Hj'; apply in_xrange in Hj'.
    apply Hfg; auto; congruence.
Qed.

Lemma pair_energy_reads (s1 s2 : PairFF) (i j : nat) :
  geom s1 = geom s2 -> pot s1 = pot s2 ->
  get2 (mask s1) i j = get2 (mask s2) i j ->
  pair_energy s1 i j = pair_energy s2 i j.
Proof.
  intros Hg Hp Hm; unfold pair_energy; rewrite Hm.
  destruct (providers_read s1 s2 i j Hg Hp) as (-> & _); reflexivity.
Qed.

(** X13: two evaluators that differ in one mask entry below the
    diagonal only, which the second has at zero: [energy] of the first is
    [energy] of the second plus the contribution of that one pair. *)
Theorem mask_exclusivity (s1 s2 : PairFF) (cs : list vec3) (i j : nat) :
  geom s1 = Some (build_geometry cs) ->
  geom s2 = geom s1 -> pot s2 = pot s1 ->
  covers (length cs) (mask s1) ->
  parameters_cover (length cs) (pot s1) ->
  (j < i)%nat -> (i < length cs)%nat ->
  (forall i' j', (i', j') <> (i, j) ->
     get2 (mask s2) i' j' = get2 (mask s1) i' j') ->
  get2 (mask s2) i j = Ok 0 ->
  exists e1 e2 x,
    energy s1 = Ok e1 /\ energy s2 = Ok e2 /\
    pair_energy s1 i j = Ok x /\ e1 = e2 + x.
Proof.
  intros Hg1 Hg2 Hp2 Hm1 Hp1 Hji Hi Hsame Hzero.
  assert (Hm2 : covers (length cs) (mask s2)).
  { intros i' j' Hi' Hj'.
    destruct (Nat.eq_dec i' i) as [-> | Hne];
      [destruct (Nat.eq_dec j' j) as [-> | Hne] |];
      [eauto | |];
      (rewrite Hsame by (intros E; inversion E; subst; contradiction)); auto. }
  do 3 eexists; split; [apply (energy_sum_below s1 cs); assumption |].
  split; [apply (energy_sum_below s2 cs); [congruence | assumption | rewrite Hp2; assumption] |].
  split; [apply (pair_energy_total s1 cs); auto; lia |].
  rewrite (sum_below_point _ _
             (fun i' j' => returned_or 0 (pair_energy s2 i' j')) i j Hji Hi).
  - replace (pair_energy s2 i j) with (@Ok R 0); [simpl; ring |].
    unfold pair_energy; rewrite Hzero; simpl.
    destruct (Rlt_dec 0 0); [lra | reflexivity].
  - intros i' j' _ _ Hne; f_equal; symmetry.
    apply pair_energy_reads; auto.
Qed.

Lemma mask_exclusivity_witness :
  let cs := [V3 0 0 0; V3 1 0 0] in
  let s1 := {| mask := [[0; 1]; [1; 0]]; coordinates := Some cs;
               geom := Some (build_geometry cs);
               pot := Coulomb (Some [1; -1]) None |} in
  let s2 := {| mask := [[0; 1]; [0; 0]]; coordinates := Some cs;
               geom := Some (build_geometry cs);
               pot := Coulomb (Some [1; -1]) None |} in
  exists e1 e2 x,
    energy s1 = Ok e1 /\ energy s2 = Ok e2 /\
    pair_energy s1 1 0 = Ok x /\ e1 = e2 + x.
Proof.
  intros cs s1 s2.
  apply (mask_exclusivity s1 s2 cs 1 0); try reflexivity; simpl; try lia.
  - apply square_covers; split; [reflexivity | repeat constructor].
  - split; intros x H; inversion H; simpl; lia.
  - intros [| [| i']] [| [| j']] H; try reflexivity; congruence.
Defined.

(** ** Action and reaction *)

(** The cache of a pair and of the pair in the other order. *)
Lemma geometry_of_pair (cs : list vec3) (i j : nat) :
  (i < length cs)%nat -> (j < length cs)%nat -> i <> j ->
  exists (r : R) (delta d : vec3),
    let g := build_geometry cs in
    get2 (distances g) i j = Ok r /\ get2 (distances g) j i = Ok r /\
    get2 (deltas g) i j = Ok delta /\ get2 (deltas g) j i = Ok (vneg delta) /\
    get2 (directions g) i j = Ok d /\ get2 (directions g) j i = Ok (vneg d) /\
    get2 (dirouters g) i j = Ok (outer d d) /\
    get2 (dirouters g) j i = Ok (outer (vneg d) (vneg d)).
Proof.
  intros Hi Hj Hne.
  assert (Eij : (i =? j)%nat = false) by (apply Nat.eqb_neq; assumption).
  assert (Eji : (j =? i)%nat = false) by (apply Nat.eqb_neq; auto).
  pose proof (nth_error_nth' cs vzero Hi) as Hci.
  pose proof (nth_error_nth' cs vzero Hj) as Hcj.
  exists (norm (vsub (nth i cs vzero) (nth j cs vzero))),
    (vsub (nth i cs vzero) (nth j cs vzero)),
    (vdiv (vsub (nth i cs vzero) (nth j cs vzero))
          (norm (vsub (nth i cs vzero) (nth j cs vzero)))).
  simpl; rewrite !(get2_pair_table _ cs i j _ _ Hci Hcj).
  rewrite !(get2_pair_table _ cs j i _ _ Hcj Hci).
  unfold pair_geometry; rewrite Eij, Eji; simpl.
  fold (norm (vsub (nth i cs vzero) (nth j cs vzero))).
  fold (norm (vsub (nth j cs vzero) (nth i cs vzero))).
  rewrite (vsub_swap (nth i cs vzero) (nth j cs vzero)), norm_vneg, vdiv_vneg.
  repeat split.
Qed.

Lemma vsum_cons (v : vec3) (l : list vec3) : vsum (v :: l) = vadd v (vsum l).
Proof. reflexivity. Qed.

(** Unfolding the vector operations, innermost first. *)
Ltac vec_cbv :=
  cbv [msum vsum fold_right mmuls mmul msub madd identity3 mzero outer transpose
       vdiv vmuls smul vneg vsub vadd vzero dot row0 row1 row2 vx vy vz].

Ltac vec_ring :=
  repeat match goal with
         | v : vec3 |- _ => destruct v
         end;
  vec_cbv; unfold Rdiv;
  try match goal with
      | |- V3 _ _ _ = V3 _ _ _ => apply f_equal3
      | |- M3 _ _ _ = M3 _ _ _ => apply f_equal3; apply f_equal3
      end;
  ring.

Lemma vadd_assoc (a b c : vec3) : vadd (vadd a b) c = vadd a (vadd b c).
Proof. vec_eq. Qed.

Lemma vadd_vzero_r (a : vec3) : vadd a vzero = a.
Proof. vec_eq. Qed.

Lemma vadd_vzero_l (a : vec3) : vadd vzero a = a.
Proof. vec_eq. Qed.

Lemma vneg_self_zero (a : vec3) : a = vneg a -> a = vzero.
Proof.
  destruct a as [x y z]; vec_unfold; intros H; inversion H.
  f_equal; lra.
Qed.

Lemma vsum_app (l1 l2 : list vec3) : vsum (l1 ++ l2) = vadd (vsum l1) (vsum l2).
Proof.
  induction l1 as [| v l1 IH]; simpl; [rewrite vadd_vzero_l; reflexivity |].
  rewrite IH, vadd_assoc; reflexivity.
Qed.

Lemma vsum_map_vadd {A : Type} (f g : A -> vec3) (l : list A) :
  vsum (map (fun a => vadd (f a) (g a)) l) =
  vadd (vsum (map f l)) (vsum (map g l)).
Proof.
  induction l as [| a l IH]; simpl; [vec_eq |].
  rewrite IH; generalize (vsum (map f l)) (vsum (map g l)) (f a) (g a); vec_eq.
Qed.

Lemma vsum_zero {A : Type} (f : A -> vec3) (l : list A) :
  (forall a, In a l -> f a = vzero) -> vsum (map f l) = vzero.
Proof.
  induction l as [| a l IH]; intros H; simpl; [reflexivity |].
  rewrite (H a (or_introl eq_refl)), IH, vadd_vzero_l; [reflexivity |].
  intros; apply H; right; assumption.
Qed.

(** A loop that adds one vector per element adds their sum. *)
Lemma foldM_vadd {A : Type} (f : A -> result vec3) (l : list A) (r : vec3) :
  foldM (fun result a => x <- f a ;; Ok (vadd result x)) l r =
  (xs <- mapM f l ;; Ok (vadd r (vsum xs))).
Proof.
  revert r; induction l as [| a l IH]; intros r; simpl.
  - rewrite vadd_vzero_r; reflexivity.
  - destruct (f a) as [x | e]; simpl; [| reflexivity].
    rewrite IH; destruct (mapM f l); simpl; [| reflexivity].
    rewrite vadd_assoc; reflexivity.
Qed.

Lemma gradient_component_as_sum (self : PairFF) (i : nat) :
  gradient_component self i =
  (n <- attr self numc ;;
   xs <- mapM (pair_gradient self i) (xrange n) ;;
   Ok (vadd vzero (vsum xs))).
Proof.
  unfold gradient_component.
  destruct (attr self numc) as [n |]; simpl; [| reflexivity].
  rewrite <- foldM_vadd; apply foldM_ext; intros r j _; unfold pair_gradient.
  destruct (get2 (mask self) i j) as [m |]; simpl; [| reflexivity].
  destruct (Rlt_dec 0 m); simpl; [| rewrite vadd_vzero_r; reflexivity].
  destruct (yield_pair_energies self i j) as [es |]; simpl; [| reflexivity].
  destruct (yield_pair_gradients self i j) as [gs |]; simpl; [| reflexivity].
  rewrite foldM_vadd; destruct (mapM _ (combine es gs)); reflexivity.
Qed.

(** The sum over all ordered pairs of an antisymmetric family is zero. *)
Lemma antisymmetric_double_sum (F : nat -> nat -> vec3) (n : nat) :
  (forall i j, (i < n)%nat -> (j < n)%nat -> F j i = vneg (F i j)) ->
  vsum (map (fun i => vsum (map (F i) (xrange n))) (xrange n)) = vzero.
Proof.
  induction n as [| n IH]; intros H; [reflexivity |].
  unfold xrange in *; rewrite seq_S; simpl.
  rewrite map_app, vsum_app; simpl.
  rewrite (map_ext _ (fun i => vadd (vsum (map (F i) (seq 0 n))) (F i n)))
    by (intros i; rewrite map_app, vsum_app; simpl;
        rewrite vadd_vzero_r; reflexivity).
  rewrite vsum_map_vadd, IH by (intros; apply H; lia).
  rewrite map_app, vsum_app; simpl.
  rewrite (vneg_self_zero (F n n)) by (apply H; lia).
  rewrite !vadd_vzero_r, vadd_vzero_l, <- vsum_map_vadd.
  apply vsum_zero; intros i Hi; apply in_seq in Hi.
  rewrite (H i n) by lia; generalize (F i n); vec_eq.
Qed.

(** The entries read from the parameter arrays, as variables. *)
Ltac abstract_entries :=
  repeat match goal with
         | |- context [nth ?k ?l ?d] => generalize (nth k l d)
         end;
  intros.

Section Symmetric_evaluator.

Variables (self : PairFF) (cs : list vec3).
Hypothesis Hgeom : geom self = Some (build_geometry cs).
Hypothesis Hmask : covers (length cs) (mask self).
Hypothesis Hmask_sym : symmetric (mask self).
Hypothesis Hcover : parameters_cover (length cs) (pot self).
Hypothesis Hpot_sym : symmetric_parameters (pot self).

(** The contribution of [j] to the gradient of [i] is the opposite of the
    contribution of [i] to the gradient of [j]. *)
Lemma pair_gradient_swap (i j : nat) :
  (i < length cs)%nat -> (j < length cs)%nat -> i <> j ->
  exists x, pair_gradient self i j = Ok x /\ pair_gradient self j i = Ok (vneg x).
Proof.
  intros Hi Hj Hne.
  destruct (geometry_of_pair cs i j Hi Hj Hne)
    as (r & delta & d & Hr & Hr' & Hdl & Hdl' & Hd & Hd' & _).
  cbv zeta in *.
  destruct (Hmask i j Hi Hj) as [m Hm].
  unfold pair_gradient; rewrite <- (Hmask_sym i j), Hm; cbn [bind].
  destruct (Rlt_dec 0 m); [| exists vzero; split; [reflexivity | f_equal; vec_ring]].
  unfold yield_pair_energies, yield_pair_gradients,
    CoulombFF.yield_pair_energies, CoulombFF.yield_pair_gradients,
    DispersionFF.yield_pair_energies, DispersionFF.yield_pair_gradients,
    PauliFF.yield_pair_energies, PauliFF.yield_pair_gradients,
    CoulombFF.read_charges, gradient_term, attr.
  rewrite Hgeom; cbn [bind].
  destruct (pot self) as [| charges dipoles | s | s]; cbn [parameters_cover] in *;
    [contradiction | | |].
  - destruct Hcover as [Hc Hp].
    rewrite Hr, Hr', Hdl, Hdl'; cbn [bind].
    destruct charges as [q |], dipoles as [p |];
      try (specialize (Hc q eq_refl)); try (specialize (Hp p eq_refl));
      try (rewrite (get1_nth q i 0), (get1_nth q j 0) by lia);
      try (rewrite (get1_nth p i vzero), (get1_nth p j vzero) by lia);
      cbn [bind app combine mapM]; rewrite ?Hgeom; cbn [bind];
      rewrite ?Hd, ?Hd'; cbn [bind];
      eexists; (split; [reflexivity |]); f_equal; abstract_entries; vec_ring.
  - destruct (Hcover i j Hi Hj) as [k Hk].
    rewrite <- (Hpot_sym i j), Hk; cbn [bind]; rewrite Hr, Hr'.
    cbn [bind app combine mapM]; rewrite ?Hgeom; cbn [bind].
    rewrite ?Hd, ?Hd'; cbn [bind].
    eexists; (split; [reflexivity |]); f_equal.
    generalize (powerRZ r (-6)) (powerRZ r (-7)); intros; vec_ring.
  - destruct (Hcover i j Hi Hj) as [k Hk].
    rewrite <- (Hpot_sym i j), Hk; cbn [bind]; rewrite Hr, Hr'.
    cbn [bind app combine mapM]; rewrite ?Hgeom; cbn [bind].
    rewrite ?Hd, ?Hd'; cbn [bind].
    eexists; (split; [reflexivity |]); f_equal.
    generalize (powerRZ r (-12)) (powerRZ r (-13)); intros; vec_ring.
Qed.

Lemma pair_gradient_diagonal (i : nat) :
  get2 (mask self) i i = Ok 0 -> pair_gradient self i i = Ok vzero.
Proof.
  intros H; unfold pair_gradient; rewrite H; simpl.
  destruct (Rlt_dec 0 0); [lra | reflexivity].
Qed.

(** The gradients of all atoms add up to zero. *)
Lemma gradient_sums_to_zero :
  (forall i, (i < length cs)%nat -> get2 (mask self) i i = Ok 0) ->
  exists g, gradient self = Ok g /\ vsum g = vzero.
Proof.
  intros Hdiag.
  set (G := fun i j => returned_or vzero (pair_gradient self i j)).
  assert (HG : forall i j, (i < length cs)%nat -> (j < length cs)%nat ->
             pair_gradient self i j = Ok (G i j) /\ G j i = vneg (G i j)).
  { intros i j Hi Hj; unfold G; destruct (Nat.eq_dec i j) as [<- | Hne].
    - rewrite pair_gradient_diagonal by auto; split; [reflexivity | vec_eq].
    - destruct (pair_gradient_swap i j Hi Hj Hne) as (x & -> & ->); auto. }
  exists (map (fun i => vadd vzero (vsum (map (G i) (xrange (length cs)))))
              (xrange (length cs))); split.
  - unfold gradient, attr; rewrite Hgeom; simpl.
    apply mapM_Ok; intros i Hi; apply in_xrange in Hi.
    rewrite gradient_component_as_sum; unfold attr; rewrite Hgeom; simpl.
    rewrite (mapM_Ok _ (G i)); [reflexivity |].
    intros j Hj; apply in_xrange in Hj; apply HG; assumption.
  - rewrite (map_ext _ (fun i => vsum (map (G i) (xrange (length cs)))))
      by (intros; apply vadd_vzero_l).
    apply antisymmetric_double_sum; intros i j Hi Hj; apply HG; assumption.
Qed.

End Symmetric_evaluator.

Lemma get2_square_out {A : Type} (n : nat) (a : list (list A)) (i j : nat) :
  square n a -> (n <= i)%nat \/ (n <= j)%nat -> get2 a i j = Raise IndexError.
Proof.
  intros [Hl Hr] H; unfold get2.
  destruct (get1 a i) as [row | e] eqn:E; simpl.
  - apply get1_out_of_range.
    apply get1_Ok in E; pose proof (nth_error_In _ _ E) as Hin.
    rewrite Forall_forall in Hr.
    rewrite (Hr row Hin); destruct H as [H | H]; [| assumption].
    assert (i < length a)%nat; [| lia].
    apply nth_error_Some; congruence.
  - apply get1_Raise in E; subst; reflexivity.
Qed.

Lemma symmetric_zero_diagonal (n : nat) (mask0 : list (list R)) :
  square n mask0 -> symmetric mask0 -> symmetric (zero_diagonal mask0).
Proof.
  intros Hsq Hsym i j.
  destruct (Nat.lt_ge_cases i n) as [Hi | Hi], (Nat.lt_ge_cases j n) as [Hj | Hj].
  - rewrite !(get2_zero_diagonal n) by assumption.
    rewrite (Nat.eqb_sym j i), (Hsym i j); reflexivity.
  - rewrite !(get2_square_out n) by auto using square_zero_diagonal; reflexivity.
  - rewrite !(get2_square_out n) by auto using square_zero_diagonal; reflexivity.
  - rewrite !(get2_square_out n) by auto using square_zero_diagonal; reflexivity.
Qed.

(** X14: action and reaction. For an evaluator of one of the three
    classes built with a symmetric mask (and, for [DispersionFF] and
    [PauliFF], symmetric strengths), [gradient] returns and the gradients
    of all atoms add up to the zero vector. *)
Theorem net_force_zero (n : nat) (mask0 : list (list R)) (cs : list vec3)
    (pot0 : potential) :
  square n mask0 -> symmetric mask0 -> length cs = n ->
  parameters_cover n pot0 -> symmetric_parameters pot0 ->
  exists self g,
    new_PairFF mask0 (Some cs) pot0 = Ok self /\
    gradient self = Ok g /\ vsum g = vzero.
Proof.
  intros Hsq Hsym Hn Hp Hps; subst n.
  destruct (gradient_sums_to_zero
    {| mask := zero_diagonal mask0; coordinates := Some cs;
       geom := option_map build_geometry (Some cs); pot := pot0 |} cs)
    as (g & Hg & Hz); simpl; auto.
  - apply square_covers, square_zero_diagonal; assumption.
  - apply (symmetric_zero_diagonal (length cs)); assumption.
  - intros i Hi; rewrite (get2_zero_diagonal (length cs)) by assumption.
    rewrite Nat.eqb_refl; reflexivity.
  - eexists; exists g; split; [reflexivity | split; assumption].
Qed.

Lemma net_force_zero_witness :
  exists self g,
    new_PairFF [[0; 1]; [1; 0]] (Some [V3 0 0 0; V3 1 0 0])
               (Coulomb (Some [1; -1]) (Some [V3 0 1 0; V3 1 0 0])) = Ok self /\
    gradient self = Ok g /\ vsum g = vzero.
Proof.
  apply (net_force_zero 2 [[0; 1]; [1; 0]] [V3 0 0 0; V3 1 0 0]
           (Coulomb (Some [1; -1]) (Some [V3 0 1 0; V3 1 0 0]))).
  - split; [reflexivity | repeat constructor].
  - intros [| [| [| i]]] [| [| [| j]]]; reflexivity.
  - reflexivity.
  - split; intros x H; inversion H; simpl; lia.
  - exact I.
Defined.

(** ** The Hessian is symmetric *)

Lemma transpose_mzero : transpose mzero = mzero.
Proof. reflexivity. Qed.

Lemma transpose_madd (a b : mat3) :
  transpose (madd a b) = madd (transpose a) (transpose b).
Proof. reflexivity. Qed.

Lemma transpose_msub (a b : mat3) :
  transpose (msub a b) = msub (transpose a) (transpose b).
Proof. reflexivity. Qed.

Lemma transpose_msum (l : list mat3) :
  (forall a, In a l -> transpose a = a) -> transpose (msum l) = msum l.
Proof.
  induction l as [| a l IH]; intros H; [reflexivity |].
  simpl; rewrite transpose_madd, (H a (or_introl eq_refl)), IH; [reflexivity |].
  intros; apply H; right; assumption.
Qed.

Section Symmetric_hessian.

Variables (self : PairFF) (cs : list vec3).
Hypothesis Hgeom : geom self = Some (build_geometry cs).
Hypothesis Hmask : covers (length cs) (mask self).
Hypothesis Hmask_sym : symmetric (mask self).
Hypothesis Hcover : parameters_cover (length cs) (pot self).
Hypothesis Hpot_sym : symmetric_parameters (pot self).

(** What a pair adds to a block is a symmetric matrix, the same for the
    pair in the other order. *)
Lemma pair_block_swap (i j : nat) :
  (i < length cs)%nat -> (j < length cs)%nat -> i <> j ->
  exists B,
    pair_block self i j = Ok B /\ pair_block self j i = Ok B /\ transpose B = B.
Proof.
  intros Hi Hj Hne.
  destruct (geometry_of_pair cs i j Hi Hj Hne)
    as (r & delta & d & Hr & Hr' & Hdl & Hdl' & Hd & Hd' & Ho & Ho').
  cbv zeta in *.
  destruct (Hmask i j Hi Hj) as [m Hm].
  unfold pair_block; rewrite <- (Hmask_sym i j), Hm; cbn [bind].
  destruct (Rlt_dec 0 m); [| exists mzero; repeat split].
  unfold zipped_terms, yield_pair_energies, yield_pair_gradients,
    yield_pair_hessians,
    CoulombFF.yield_pair_energies, CoulombFF.yield_pair_gradients,
    CoulombFF.yield_pair_hessians,
    DispersionFF.yield_pair_energies, DispersionFF.yield_pair_gradients,
    DispersionFF.yield_pair_hessians,
    PauliFF.yield_pair_energies, PauliFF.yield_pair_gradients,
    PauliFF.yield_pair_hessians,
    CoulombFF.read_charges, hessian_term, zip3, attr.
  rewrite Hgeom; cbn [bind]; rewrite Hr, Hr'; cbn [bind].
  destruct (pot self) as [| charges dipoles | s | s]; cbn [parameters_cover] in *;
    [contradiction | | |].
  - destruct Hcover as [Hc Hp].
    rewrite ?Hr, ?Hr', ?Hdl, ?Hdl'; cbn [bind].
    destruct charges as [q |], dipoles as [p |];
      try (specialize (Hc q eq_refl)); try (specialize (Hp p eq_refl));
      try (rewrite (get1_nth q i 0), (get1_nth q j 0) by lia);
      try (rewrite (get1_nth p i vzero), (get1_nth p j vzero) by lia);
      cbn [bind app combine mapM]; rewrite ?Hgeom; cbn [bind];
      rewrite ?Hd, ?Hd', ?Ho, ?Ho'; cbn [bind];
      eexists; (split; [reflexivity |]);
      (split; [f_equal |]); abstract_entries; vec_ring.
  - destruct (Hcover i j Hi Hj) as [k Hk].
    rewrite <- (Hpot_sym i j), Hk; cbn [bind]; rewrite ?Hr, ?Hr'.
    cbn [bind app combine mapM]; rewrite ?Hgeom; cbn [bind].
    rewrite ?Hd, ?Hd', ?Ho, ?Ho'; cbn [bind].
    eexists; (split; [reflexivity |]); (split; [f_equal |]).
    all: generalize (powerRZ r (-6)) (powerRZ r (-7)) (powerRZ r (-8)); intros.
    all: vec_ring.
  - destruct (Hcover i j Hi Hj) as [k Hk].
    rewrite <- (Hpot_sym i j), Hk; cbn [bind]; rewrite ?Hr, ?Hr'.
    cbn [bind app combine mapM]; rewrite ?Hgeom; cbn [bind].
    rewrite ?Hd, ?Hd', ?Ho, ?Ho'; cbn [bind].
    eexists; (split; [reflexivity |]); (split; [f_equal |]).
    all: generalize (powerRZ r (-12)) (powerRZ r (-13)) (powerRZ r (-14)); intros.
    all: vec_ring.
Qed.

Lemma hessian_blocks_symmetric (i j : nat) :
  (forall k, (k < length cs)%nat -> get2 (mask self) k k = Ok 0) ->
  (i < length cs)%nat -> (j < length cs)%nat ->
  exists Bij Bji,
    hessian_component self i j = Ok Bij /\
    hessian_component self j i = Ok Bji /\
    transpose Bij = Bji.
Proof.
  intros Hdiag Hi Hj.
  destruct (Nat.eq_dec i j) as [<- | Hne].
  - set (F := fun k => returned (pair_block self i k)).
    assert (HF : forall k, In k (xrange (length cs)) ->
               pair_block self i k = Ok (F k)).
    { intros k Hk; apply in_xrange in Hk; apply (pair_block_total self cs); auto. }
    assert (Hsym : forall B, In B (map F (xrange (length cs))) -> transpose B = B).
    { intros B HB; apply in_map_iff in HB; destruct HB as (k & <- & Hk).
      apply in_xrange in Hk; unfold F.
      destruct (Nat.eq_dec i k) as [<- | Hik].
      - unfold pair_block; rewrite Hdiag by assumption; simpl.
        destruct (Rlt_dec 0 0); [lra | reflexivity].
      - destruct (pair_block_swap i k Hi Hk Hik) as (B & -> & _ & HB); exact HB. }
    exists (madd mzero (msum (map F (xrange (length cs))))),
      (madd mzero (msum (map F (xrange (length cs))))).
    assert (Hc : hessian_component self i i =
                 Ok (madd mzero (msum (map F (xrange (length cs)))))).
    { rewrite hessian_component_diagonal; unfold attr; rewrite Hgeom; simpl.
      rewrite (mapM_Ok _ F) by exact HF; reflexivity. }
    split; [exact Hc |]; split; [exact Hc |].
    rewrite transpose_madd, transpose_mzero, transpose_msum by exact Hsym.
    reflexivity.
  - destruct (pair_block_swap i j Hi Hj Hne) as (B & Hij & Hji & HB).
    exists (msub mzero B), (msub mzero B).
    rewrite !hessian_component_off_diagonal by auto.
    rewrite Hij, Hji; repeat split.
    rewrite transpose_msub, transpose_mzero, HB; reflexivity.
Qed.

End Symmetric_hessian.

(** X15: the Hessian is a symmetric matrix. For an evaluator of one of
    the three classes built with a symmetric mask (and, for [DispersionFF]
    and [PauliFF], symmetric strengths), the block that
    [hessian_component(j, i)] returns is the transpose of the block that
    [hessian_component(i, j)] returns, for all atoms [i] and [j]. *)
Theorem hessian_symmetric (n : nat) (mask0 : list (list R)) (cs : list vec3)
    (pot0 : potential) :
  square n mask0 -> symmetric mask0 -> length cs = n ->
  parameters_cover n pot0 -> symmetric_parameters pot0 ->
  exists self,
    new_PairFF mask0 (Some cs) pot0 = Ok self /\
    forall i j, (i < n)%nat -> (j < n)%nat ->
      exists Bij Bji,
        hessian_component self i j = Ok Bij /\
        hessian_component self j i = Ok Bji /\
        transpose Bij = Bji.
Proof.
  intros Hsq Hsym Hn Hp Hps; subst n.
  eexists; split; [apply new_PairFF_Ok |]; intros i j Hi Hj.
  apply (hessian_blocks_symmetric _ cs); simpl; auto.
  - apply square_covers, square_zero_diagonal; assumption.
  - apply (symmetric_zero_diagonal (length cs)); assumption.
  - intros k Hk; rewrite (get2_zero_diagonal (length cs)) by assumption.
    rewrite Nat.eqb_refl; reflexivity.
Qed.

Lemma hessian_symmetric_witness :
  exists self,
    new_PairFF [[0; 1]; [1; 0]] (Some [V3 0 0 0; V3 1 0 0])
               (Coulomb (Some [1; -1]) (Some [V3 0 1 0; V3 1 0 0])) = Ok self /\
    forall i j, (i < 2)%nat -> (j < 2)%nat ->
      exists Bij Bji,
        hessian_component self i j = Ok Bij /\
        hessian_component self j i = Ok Bji /\
        transpose Bij = Bji.
Proof.
  apply (hessian_symmetric 2 [[0; 1]; [1; 0]] [V3 0 0 0; V3 1 0 0]
           (Coulomb (Some [1; -1]) (Some [V3 0 1 0; V3 1 0 0]))).
  - split; [reflexivity | repeat constructor].
  - intros [| [| [| i]]] [| [| [| j]]]; reflexivity.
  - reflexivity.
  - split; intros x H; inversion H; simpl; lia.
  - exact I.
Defined.

(** ** The force between two charges, and potentials of the distance *)

Lemma get2_direction (cs : list vec3) (i j : nat) :
  (i < length cs)%nat -> (j < length cs)%nat -> i <> j ->
  get2 (directions (build_geometry cs)) i j =
  Ok (vdiv (vsub (position cs i) (position cs j)) (separation cs i j)).
Proof.
  intros Hi Hj Hne; simpl.
  rewrite (get2_pair_table _ cs i j (position cs i) (position cs j))
    by (apply nth_error_nth'; assumption).
  unfold pair_geometry.
  replace (i =? j)%nat with false by (symmetry; apply Nat.eqb_neq; assumption).
  reflexivity.
Qed.

(** X16: the force law of point charges. For an evaluator built with
    charges and no dipoles, [gradient_component(i)] returns the sum over
    the atoms [j <> i] with a positive mask entry of
    [- q_i q_j / r_ij^2] times the unit vector from [j] to [i], weighted by
    the mask entry. *)
Theorem coulomb_force (n : nat) (mask0 : list (list R)) (cs : list vec3)
    (q : list R) :
  square n mask0 -> length cs = n -> length q = n ->
  exists self,
    new_PairFF mask0 (Some cs) (Coulomb (Some q) None) = Ok self /\
    forall i, (i < n)%nat ->
      gradient_component self i =
      Ok (vsum (map (fun j =>
            if (i =? j)%nat then vzero
            else if Rlt_dec 0 (entry mask0 i j)
            then smul (- (charge q i * charge q j) / separation cs i j ^ 2
                       * entry mask0 i j)
                      (vdiv (vsub (position cs i) (position cs j))
                            (separation cs i j))
            else vzero) (xrange n))).
Proof.
  intros Hsq Hn Hq; eexists; split; [apply new_PairFF_Ok |]; intros i Hi.
  subst n; rewrite gradient_component_as_sum; unfold attr.
  cbn [geom option_map bind numc build_geometry].
  erewrite mapM_Ok; [cbn [bind]; rewrite vadd_vzero_l; reflexivity |].
  intros j Hj; apply in_xrange in Hj.
  unfold pair_gradient; cbn [mask].
  rewrite (get2_zero_diagonal (length cs)) by assumption.
  destruct (Nat.eqb_spec i j) as [<- | Hne].
  - cbn [bind]; destruct (Rlt_dec 0 0); [lra | reflexivity].
  - rewrite (get2_entry (length cs)) by assumption; cbn [bind].
    destruct (Rlt_dec 0 (entry mask0 i j)); [| reflexivity].
    unfold yield_pair_energies, yield_pair_gradients,
      CoulombFF.yield_pair_energies, CoulombFF.yield_pair_gradients,
      CoulombFF.read_charges, gradient_term, attr.
    cbn [pot geom option_map bind].
    rewrite get2_distance by assumption; cbn [bind].
    rewrite (get1_nth q i 0), (get1_nth q j 0) by lia.
    cbn [bind app combine mapM]; rewrite get2_direction by assumption.
    cbn [bind]; f_equal; unfold charge.
    generalize (vdiv (vsub (position cs i) (position cs j)) (separation cs i j)).
    generalize (separation cs i j) (entry mask0 i j) (nth i q 0) (nth j q 0).
    intros; vec_ring.
Qed.

Lemma coulomb_force_witness :
  exists self,
    new_PairFF [[0; 1]; [1; 0]] (Some [V3 0 0 0; V3 1 0 0])
               (Coulomb (Some [1; -1]) None) = Ok self /\
    forall i, (i < 2)%nat ->
      gradient_component self i =
      Ok (vsum (map (fun j =>
            if (i =? j)%nat then vzero
            else if Rlt_dec 0 (entry [[0; 1]; [1; 0]] i j)
            then smul (- (charge [1; -1] i * charge [1; -1] j)
                       / separation [V3 0 0 0; V3 1 0 0] i j ^ 2
                       * entry [[0; 1]; [1; 0]] i j)
                      (vdiv (vsub (position [V3 0 0 0; V3 1 0 0] i)
                                  (position [V3 0 0 0; V3 1 0 0] j))
                            (separation [V3 0 0 0; V3 1 0 0] i j))
            else vzero) (xrange 2))).
Proof.
  apply (coulomb_force 2 [[0; 1]; [1; 0]] [V3 0 0 0; V3 1 0 0] [1; -1]);
    try reflexivity.
  split; [reflexivity | repeat constructor].
Defined.

(** X17: without dipoles the energy depends on the coordinates through
    the distances only: two coordinate arrays of the same length with the
    same distance for every pair of atoms, as after a rotation or a
    reflection of all atoms, give the same [energy]. *)
Theorem energy_depends_on_distances (self : PairFF) (cs cs' : list vec3) :
  radial_only (pot self) ->
  length cs' = length cs ->
  (forall i j, (i < length cs)%nat -> (j < length cs)%nat ->
     separation cs' i j = separation cs i j) ->
  exists s s',
    update_coordinates (Some cs) self = Ok s /\
    update_coordinates (Some cs') self = Ok s' /\
    energy s' = energy s.
Proof.
  intros Hp Hl Hd; do 2 eexists; split; [reflexivity |]; split; [reflexivity |].
  unfold energy, attr; cbn [geom bind numc build_geometry mask]; rewrite Hl.
  apply foldM_ext; intros r i Hi; apply foldM_ext; intros r' j Hj.
  apply in_xrange in Hi, Hj.
  destruct (get2 (mask self) i j) as [m |]; cbn [bind]; [| reflexivity].
  destruct (Rlt_dec 0 m); [| reflexivity].
  replace (yield_pair_energies _ i j) with
    (yield_pair_energies
       {| mask := mask self; coordinates := Some cs;
          geom := Some (build_geometry cs); pot := pot self |} i j);
    [reflexivity |].
  unfold yield_pair_energies, CoulombFF.yield_pair_energies,
    DispersionFF.yield_pair_energies, PauliFF.yield_pair_energies, attr.
  cbn [pot geom bind].
  rewrite !get2_distance by lia; rewrite Hd by lia.
  destruct (pot self) as [| charges [p |] | s | s]; try reflexivity.
  destruct Hp.
Qed.

Lemma energy_depends_on_distances_witness :
  let self := {| mask := [[0; 1]; [1; 0]]; coordinates := None; geom := None;
                 pot := Dispersion [[0; 2]; [2; 0]] |} in
  exists s s',
    update_coordinates (Some [V3 0 0 0; V3 1 0 0]) self = Ok s /\
    update_coordinates (Some [V3 0 0 0; V3 0 (-1) 0]) self = Ok s' /\
    energy s' = energy s.
Proof.
  intros self.
  apply (energy_depends_on_distances self [V3 0 0 0; V3 1 0 0]
           [V3 0 0 0; V3 0 (-1) 0]).
  - exact I.
  - reflexivity.
  - intros [| [| i]] [| [| j]] Hi Hj; simpl in Hi, Hj; try lia;
      unfold separation, norm, position, nth; f_equal;
      cbv [dot vsub vx vy vz]; ring.
Defined.
